(** * math-optimizer: a shallow embedding of the rewrite passes

    The development follows the three source files of the repository:

    - [parser.py]     the [MathExtractor] visitor,
    - [optimizer.py]  [MathOptimizer.optimize_node] and [optimize_tree],
    - [main.py]       [parse_line_set], the [CalcTransformer] and
                      [process_file].

    Python's [ast] module and SymPy are external collaborators.  The tree
    type below is the fragment of Python's abstract syntax the passes are
    studied on; parsing, unparsing and the symbolic engine are parameters
    of a section, so every statement holds for any engine. *)

From Stdlib Require Import ZArith Lia Ascii String DecimalString DecimalPos DecimalN.
From stdpp Require Import base tactics option list strings gmap sets.

Local Set Warnings "-register-all".
Local Open Scope Z_scope.
Local Open Scope string_scope.
Local Open Scope list_scope.

(** ** Exceptions *)

(** The exceptions the modelled code can raise.  None of them is caught
    anywhere in the repository. *)
Inductive exn : Set :=
  | SyntaxError      (* ast.parse on text that is not Python *)
  | UnsupportedExpression
                     (* sympify on text SymPy cannot read: SympifyError,
                        or what evaluating the text raises *)
  | IndexError       (* body[0] on an empty module, targets[0] on [] *)
  | AttributeError   (* .value on a statement that has none *)
  | ValueError       (* int() on a malformed literal *)
  | OSError.         (* read_text on a missing file *)

Inductive result (A : Type) : Type :=
  | Ok (a : A)
  | Raise (e : exn).
Arguments Ok {A} a.
Arguments Raise {A} e.

#[global] Instance result_ret : MRet result := fun _ a => Ok a.
#[global] Instance result_bind : MBind result := fun _ _ f m =>
  match m with
  | Ok a => f a
  | Raise e => Raise e
  end.
#[global] Instance result_fmap : FMap result := fun _ _ f m =>
  match m with
  | Ok a => Ok (f a)
  | Raise e => Raise e
  end.

Definition raises {A} (m : result A) : Prop := ∃ e, m = Raise e.

(** [e if o is None] for a fallible library call. *)
Definition or_raise {A} (e : exn) (o : option A) : result A :=
  match o with
  | Some a => Ok a
  | None => Raise e
  end.

(** A [for] loop over a list whose body may raise: the elements are
    handled left to right and the first exception ends the loop. *)
Definition mapM_result {A B} (f : A → result B) : list A → result (list B) :=
  fix go (l : list A) : result (list B) :=
    match l with
    | [] => Ok []
    | x :: l' =>
        match f x with
        | Ok y =>
            match go l' with
            | Ok k => Ok (y :: k)
            | Raise e => Raise e
            end
        | Raise e => Raise e
        end
    end.

(** ** Abstract syntax *)

Inductive operator : Set :=
  | Add | Sub | Mult | MatMult | Div | Mod | Pow
  | LShift | RShift | BitOr | BitXor | BitAnd | FloorDiv.

Inductive unaryop : Set := Invert | Not | UAdd | USub.

Inductive boolop : Set := And | Or.

Inductive cmpop : Set :=
  | CmpEq | CmpNotEq | CmpLt | CmpLtE | CmpGt | CmpGtE
  | CmpIs | CmpIsNot | CmpIn | CmpNotIn.

Inductive constant : Set :=
  | CInt (n : Z)
  | CFloat (repr : string)
  | CStr (s : string)
  | CBool (b : bool)
  | CNone.

(** Expression nodes, with their fields in the order [ast] declares
    them (the order [generic_visit] walks them in). *)
Inductive expr : Set :=
  | Name (id : string)
  | Constant (value : constant)
  | BinOp (left : expr) (op : operator) (right : expr)
  | UnaryOp (op : unaryop) (operand : expr)
  | BoolOp (op : boolop) (values : list expr)
  | Compare (left : expr) (ops : list cmpop) (comparators : list expr)
  | Call (func : expr) (args : list expr)
  | Attribute (value : expr) (attr : string)
  | Subscript (value : expr) (slice : expr)
  | Tuple (elts : list expr)
  | ListE (elts : list expr).

(** Statement nodes.  Only [Assign.lineno] is read by the code, so it is
    the only position that is kept. *)
Inductive stmt : Set :=
  | Assign (targets : list expr) (value : expr) (lineno : Z)
  | AugAssign (target : expr) (op : operator) (value : expr)
  | Expr (value : expr)
  | If (test : expr) (body : list stmt) (orelse : list stmt)
  | While (test : expr) (body : list stmt) (orelse : list stmt)
  | FunctionDef (name : string) (params : list string) (body : list stmt)
  | Pass.

(** [ast.Module]. *)
Record module_ : Set := Module_ { mod_body : list stmt }.

#[global] Instance operator_eq_dec : EqDecision operator.
Proof. solve_decision. Defined.
#[global] Instance unaryop_eq_dec : EqDecision unaryop.
Proof. solve_decision. Defined.
#[global] Instance boolop_eq_dec : EqDecision boolop.
Proof. solve_decision. Defined.
#[global] Instance cmpop_eq_dec : EqDecision cmpop.
Proof. solve_decision. Defined.
#[global] Instance constant_eq_dec : EqDecision constant.
Proof. solve_decision. Defined.

(** *** Induction over the nested lists *)

Section expr_nested_ind.
Variable P : expr → Prop.
Hypothesis HName : ∀ id, P (Name id).
Hypothesis HConstant : ∀ c, P (Constant c).
Hypothesis HBinOp : ∀ l op r, P l → P r → P (BinOp l op r).
Hypothesis HUnaryOp : ∀ op e, P e → P (UnaryOp op e).
Hypothesis HBoolOp : ∀ op vs, Forall P vs → P (BoolOp op vs).
Hypothesis HCompare : ∀ l ops cs, P l → Forall P cs → P (Compare l ops cs).
Hypothesis HCall : ∀ f args, P f → Forall P args → P (Call f args).
Hypothesis HAttribute : ∀ v a, P v → P (Attribute v a).
Hypothesis HSubscript : ∀ v s, P v → P s → P (Subscript v s).
Hypothesis HTuple : ∀ es, Forall P es → P (Tuple es).
Hypothesis HListE : ∀ es, Forall P es → P (ListE es).

Fixpoint expr_nested_ind (e : expr) : P e :=
  let all := fix all (es : list expr) : Forall P es :=
    match es with
    | [] => Forall_nil_2 P
    | x :: es' => Forall_cons_2 P x es' (expr_nested_ind x) (all es')
    end in
  match e with
  | Name id => HName id
  | Constant c => HConstant c
  | BinOp l op r => HBinOp l op r (expr_nested_ind l) (expr_nested_ind r)
  | UnaryOp op e' => HUnaryOp op e' (expr_nested_ind e')
  | BoolOp op vs => HBoolOp op vs (all vs)
  | Compare l ops cs => HCompare l ops cs (expr_nested_ind l) (all cs)
  | Call f args => HCall f args (expr_nested_ind f) (all args)
  | Attribute v a => HAttribute v a (expr_nested_ind v)
  | Subscript v s => HSubscript v s (expr_nested_ind v) (expr_nested_ind s)
  | Tuple es => HTuple es (all es)
  | ListE es => HListE es (all es)
  end.
End expr_nested_ind.

Section stmt_nested_ind.
Variable P : stmt → Prop.
Hypothesis HAssign : ∀ ts v n, P (Assign ts v n).
Hypothesis HAugAssign : ∀ t op v, P (AugAssign t op v).
Hypothesis HExpr : ∀ v, P (Expr v).
Hypothesis HIf : ∀ t b o, Forall P b → Forall P o → P (If t b o).
Hypothesis HWhile : ∀ t b o, Forall P b → Forall P o → P (While t b o).
Hypothesis HFunctionDef : ∀ n ps b, Forall P b → P (FunctionDef n ps b).
Hypothesis HPass : P Pass.

Fixpoint stmt_nested_ind (s : stmt) : P s :=
  let all := fix all (ss : list stmt) : Forall P ss :=
    match ss with
    | [] => Forall_nil_2 P
    | x :: ss' => Forall_cons_2 P x ss' (stmt_nested_ind x) (all ss')
    end in
  match s with
  | Assign ts v n => HAssign ts v n
  | AugAssign t op v => HAugAssign t op v
  | Expr v => HExpr v
  | If t b o => HIf t b o (all b) (all o)
  | While t b o => HWhile t b o (all b) (all o)
  | FunctionDef n ps b => HFunctionDef n ps b (all b)
  | Pass => HPass
  end.
End stmt_nested_ind.

(** ** main.py: [parse_line_set] *)

(** Text is a [string] of bytes; the string methods below follow Python
    on ASCII text.  (CPython's configurable cap on the length of a
    decimal literal, [sys.set_int_max_str_digits], is left out.) *)

(** [str.isspace] on one ASCII character. *)
Definition is_space (c : ascii) : bool :=
  let n := N_of_ascii c in
  ((9 <=? n) && (n <=? 13) || (28 <=? n) && (n <=? 32))%N.

(** The value of a decimal digit. *)
Definition digit_of_ascii (c : ascii) : option Z :=
  let n := N_of_ascii c in
  if ((48 <=? n) && (n <=? 57))%N then Some (Z.of_N n - 48) else None.

Fixpoint lstrip (s : string) : string :=
  match s with
  | EmptyString => EmptyString
  | String c s' => if is_space c then lstrip s' else s
  end.

Fixpoint rstrip (s : string) : string :=
  match s with
  | EmptyString => EmptyString
  | String c s' =>
      match rstrip s' with
      | EmptyString => if is_space c then EmptyString else String c EmptyString
      | r => String c r
      end
  end.

(** [s.strip()]. *)
Definition strip (s : string) : string := rstrip (lstrip s).

(** [s.split(sep)] for a one-character separator: one more piece than
    there are separators, empty pieces included. *)
Fixpoint split (sep : ascii) (s : string) : list string :=
  match s with
  | EmptyString => [EmptyString]
  | String c s' =>
      if Ascii.eqb c sep then EmptyString :: split sep s'
      else match split sep s' with
           | w :: ws => String c w :: ws
           | [] => [String c EmptyString]
           end
  end.

(** [sep in s] together with [s.split(sep, 1)]: [None] when [sep] does
    not occur, else the text before and after its first occurrence. *)
Fixpoint split_once (sep : ascii) (s : string) : option (string * string) :=
  match s with
  | EmptyString => None
  | String c s' =>
      if Ascii.eqb c sep then Some (EmptyString, s')
      else match split_once sep s' with
           | Some (a, b) => Some (String c a, b)
           | None => None
           end
  end.

(** The digits of an integer literal, most significant first; a single
    underscore may separate two digits. *)
Fixpoint int_digits (acc : Z) (after_digit : bool) (s : string) : option Z :=
  match s with
  | EmptyString => if after_digit then Some acc else None
  | String c s' =>
      match digit_of_ascii c with
      | Some d => int_digits (10 * acc + d) true s'
      | None =>
          if Ascii.eqb c "_" && after_digit then int_digits acc false s'
          else None
      end
  end.

(** [int(s)] on a string, base ten. *)
Definition int (s : string) : result Z :=
  or_raise ValueError
    match strip s with
    | String "+" r => int_digits 0 false r
    | String "-" r => Z.opp <$> int_digits 0 false r
    | r => int_digits 0 false r
    end.

(** [set(range(a, b))]. *)
Definition range (a b : Z) : gset Z := list_to_set (seqZ a (b - a)).

(** One turn of the loop of [parse_line_set]. *)
Definition parse_line_part (lines : gset Z) (part : string) : result (gset Z) :=
  let part := strip part in
  if decide (part = EmptyString) then Ok lines
  else match split_once "-" part with
       | Some (a, b) =>
           a' ← int a;
           b' ← int b;
           Ok (lines ∪ range a' (b' + 1))
       | None =>
           n ← int part;
           Ok (lines ∪ {[ n ]})
       end.

(** A [for] loop that threads a value and may raise. *)
Definition foldM_result {A B} (f : B → A → result B) : list A → B → result B :=
  fix go (l : list A) (b : B) : result B :=
    match l with
    | [] => Ok b
    | x :: l' =>
        match f b x with
        | Ok b' => go l' b'
        | Raise e => Raise e
        end
    end.

Definition parse_line_set (spec : string) : result (gset Z) :=
  foldM_result parse_line_part (split "," spec) ∅.

(** *** Line specifications as they are meant to be written *)

(** A piece of a line specification: one line number or an inclusive
    range of line numbers. *)
Inductive line_token : Set :=
  | Single (n : N)
  | Span (a b : N).

(** The decimal numeral of a natural number. *)
Definition decimal (n : N) : string := NilZero.string_of_uint (N.to_uint n).

Definition render_token (t : line_token) : string :=
  match t with
  | Single n => decimal n
  | Span a b => String.append (decimal a) (String "-" (decimal b))
  end.

(** The pieces joined by commas. *)
Definition render_spec (ts : list line_token) : string :=
  String.concat "," (map render_token ts).

(** The lines a piece stands for. *)
Definition token_lines (t : line_token) : gset Z :=
  match t with
  | Single n => {[ Z.of_N n ]}
  | Span a b => range (Z.of_N a) (Z.of_N b + 1)
  end.

Definition is_digit (c : ascii) : bool :=
  match digit_of_ascii c with
  | Some _ => true
  | None => false
  end.

Fixpoint string_forall (p : ascii → bool) (s : string) : bool :=
  match s with
  | EmptyString => true
  | String c s' => p c && string_forall p s'
  end.

(** ** parser.py: the [MathExtractor] visitor *)

(** An instance of [MathExtractor]: its only field is the list [nodes].
    The visitor never assigns to a node, so the collected references are
    represented by the subtrees they point to. *)
Record MathExtractor : Set := { nodes : list expr }.

(** [MathExtractor.__init__]. *)
Definition MathExtractor_init : MathExtractor := {| nodes := [] |}.

(** [NodeVisitor.visit] on an expression.  [visit_BinOp] appends the
    node and then calls [generic_visit]; every other class goes straight
    to [generic_visit], which visits the child nodes field by field. *)
Fixpoint extractor_visit_expr (e : expr) (self : MathExtractor) : MathExtractor :=
  let visit_all := fold_left (fun self x => extractor_visit_expr x self) in
  match e with
  | BinOp l op r =>
      (* self.nodes.append(node) *)
      let self := {| nodes := nodes self ++ [BinOp l op r] |} in
      (* self.generic_visit(node) *)
      extractor_visit_expr r (extractor_visit_expr l self)
  | Name _ | Constant _ => self
  | UnaryOp _ e1 => extractor_visit_expr e1 self
  | BoolOp _ vs => visit_all vs self
  | Compare l _ cs => visit_all cs (extractor_visit_expr l self)
  | Call f args => visit_all args (extractor_visit_expr f self)
  | Attribute v _ => extractor_visit_expr v self
  | Subscript v s => extractor_visit_expr s (extractor_visit_expr v self)
  | Tuple es => visit_all es self
  | ListE es => visit_all es self
  end.

Fixpoint extractor_visit_stmt (s : stmt) (self : MathExtractor) : MathExtractor :=
  let visit_exprs := fold_left (fun self x => extractor_visit_expr x self) in
  let visit_all := fold_left (fun self x => extractor_visit_stmt x self) in
  match s with
  | Assign ts v _ => extractor_visit_expr v (visit_exprs ts self)
  | AugAssign t _ v => extractor_visit_expr v (extractor_visit_expr t self)
  | Expr v => extractor_visit_expr v self
  | If t b o => visit_all o (visit_all b (extractor_visit_expr t self))
  | While t b o => visit_all o (visit_all b (extractor_visit_expr t self))
  | FunctionDef _ _ b => visit_all b self
  | Pass => self
  end.

Definition extractor_visit (tree : module_) (self : MathExtractor) : MathExtractor :=
  fold_left (fun self x => extractor_visit_stmt x self) (mod_body tree) self.

(** *** The nodes of a tree, parent first *)

(** Every expression node below [e], [e] included, each node before the
    nodes of its fields and the fields left to right. *)
Fixpoint subexprs (e : expr) : list expr :=
  e :: match e with
       | Name _ | Constant _ => []
       | BinOp l _ r => subexprs l ++ subexprs r
       | UnaryOp _ e1 => subexprs e1
       | BoolOp _ vs => flat_map subexprs vs
       | Compare l _ cs => subexprs l ++ flat_map subexprs cs
       | Call f args => subexprs f ++ flat_map subexprs args
       | Attribute v _ => subexprs v
       | Subscript v s => subexprs v ++ subexprs s
       | Tuple es => flat_map subexprs es
       | ListE es => flat_map subexprs es
       end.

Fixpoint stmt_exprs (s : stmt) : list expr :=
  match s with
  | Assign ts v _ => flat_map subexprs ts ++ subexprs v
  | AugAssign t _ v => subexprs t ++ subexprs v
  | Expr v => subexprs v
  | If t b o => subexprs t ++ flat_map stmt_exprs b ++ flat_map stmt_exprs o
  | While t b o => subexprs t ++ flat_map stmt_exprs b ++ flat_map stmt_exprs o
  | FunctionDef _ _ b => flat_map stmt_exprs b
  | Pass => []
  end.

Definition module_exprs (tree : module_) : list expr :=
  flat_map stmt_exprs (mod_body tree).

Definition is_BinOp (e : expr) : bool :=
  match e with
  | BinOp _ _ _ => true
  | _ => false
  end.

(** The binary-operation nodes of a tree in parent-before-child order. *)
Definition binops (tree : module_) : list expr :=
  List.filter is_BinOp (module_exprs tree).

(** A statement with the value of every assignment whose first target
    is a plain name blanked out, at any depth: two statements with the
    same image differ in such values at most. *)
Fixpoint forget_assigned (s : stmt) : stmt :=
  match s with
  | Assign (Name id :: rest) _ n => Assign (Name id :: rest) (Constant CNone) n
  | Assign ts v n => Assign ts v n
  | AugAssign t op v => AugAssign t op v
  | Expr v => Expr v
  | If t b o => If t (map forget_assigned b) (map forget_assigned o)
  | While t b o => While t (map forget_assigned b) (map forget_assigned o)
  | FunctionDef n ps b => FunctionDef n ps (map forget_assigned b)
  | Pass => Pass
  end.

(** An assignment to one plain name. *)
Definition single_name_target (s : stmt) : bool :=
  match s with
  | Assign [Name _] _ _ => true
  | _ => false
  end.

(** The statement with every expression blanked out: what is left is
    the kind of the statement, the number of its targets, its line, the
    name and parameters of a function, and the statements nested in it,
    in their order. *)
Definition blank : expr := Constant CNone.

Fixpoint skeleton (s : stmt) : stmt :=
  match s with
  | Assign ts _ n => Assign (map (λ _, blank) ts) blank n
  | AugAssign _ op _ => AugAssign blank op blank
  | Expr _ => Expr blank
  | If _ b o => If blank (map skeleton b) (map skeleton o)
  | While _ b o => While blank (map skeleton b) (map skeleton o)
  | FunctionDef n ps b => FunctionDef n ps (map skeleton b)
  | Pass => Pass
  end.

(** The assignment statements of a statement, at any depth, each by its
    targets and its line. *)
Fixpoint assigns (s : stmt) : list (list expr * Z) :=
  match s with
  | Assign ts _ n => [(ts, n)]
  | AugAssign _ _ _ | Expr _ | Pass => []
  | If _ b o => flat_map assigns b ++ flat_map assigns o
  | While _ b o => flat_map assigns b ++ flat_map assigns o
  | FunctionDef _ _ b => flat_map assigns b
  end.

(** An assignment the calculus pass has no business with: it has a
    target, and if the first is a name, the name is selected for
    neither rewrite or the line filter rules the line out. *)
Definition unselected (diff_vars int_vars : gset string) (diff_lines : gset Z)
    (a : list expr * Z) : Prop :=
  match head (fst a) with
  | None => False
  | Some (Name varname) =>
      ((varname ∉ diff_vars) ∧ (varname ∉ int_vars))
      ∨ (diff_lines ≠ ∅ ∧ (snd a ∉ diff_lines))
  | Some _ => True
  end.

(** [k] is a run of consecutive elements of [l]. *)
Definition segment {A} (k l : list A) : Prop := ∃ pre post, l = pre ++ k ++ post.

(** ** What a run leaves behind *)

Inductive output : Set :=
  | Updated (path : string)
  | DiffPanel (path : string) (text : string)
  | CodePanel (path : string) (text : string).

(** The files of the run, by path, and what was printed so far. *)
Record world : Type := World { files : gmap string string; console : list output }.

(** ** A small instance of the collaborators *)

(** A finite excerpt of what Python and SymPy do on a few texts, used to
    run the passes on concrete files.  A symbolic expression is
    represented by the text [str] gives for it. *)
Module Toy.

Definition lookup_text {A} (table : list (string * A)) (text : string) : option A :=
  snd <$> List.find (λ entry, String.eqb (fst entry) text) table.

Definition x_ : expr := Name "x".
Definition y_ : expr := Name "y".
Definition int_ (n : Z) : expr := Constant (CInt n).

(** [4 * (2 + 3)] *)
Definition four_times_sum : expr := BinOp (int_ 4) Mult (BinOp (int_ 2) Add (int_ 3)).
(** [y ** 3], [3 * y ** 2] and [y ** 4 / 4] *)
Definition y_cubed : expr := BinOp y_ Pow (int_ 3).
Definition three_y_squared : expr := BinOp (int_ 3) Mult (BinOp y_ Pow (int_ 2)).
Definition y_fourth_over_4 : expr := BinOp (BinOp y_ Pow (int_ 4)) Div (int_ 4).
(** ['a' + 1] *)
Definition text_plus_one : expr := BinOp (Constant (CStr "a")) Add (int_ 1).
(** [print('hello')] *)
Definition print_hello : expr := Call (Name "print") [Constant (CStr "hello")].

Definition ast_parse : string → option module_ :=
  lookup_text
    [ ("y = 4 * (2 + 3)", Module_ [Assign [y_] four_times_sum 1]);
      ("y = y ** 3", Module_ [Assign [y_] y_cubed 1]);
      ("n = 'a' + 1", Module_ [Assign [Name "n"] text_plus_one 1]);
      ("print('hello')", Module_ [Expr print_hello]);
      ("5", Module_ [Expr (int_ 5)]);
      ("20", Module_ [Expr (int_ 20)]);
      ("y**3", Module_ [Expr y_cubed]);
      ("3*y**2", Module_ [Expr three_y_squared]);
      ("y**4/4", Module_ [Expr y_fourth_over_4]) ].

(** Precedence of a binary operator in Python's grammar. *)
Definition precedence (op : operator) : nat :=
  match op with
  | BitOr => 1 | BitXor => 2 | BitAnd => 3
  | LShift | RShift => 4
  | Add | Sub => 5
  | Mult | MatMult | Div | Mod | FloorDiv => 6
  | Pow => 8
  end%nat.

Definition operator_text (op : operator) : string :=
  match op with
  | Add => "+" | Sub => "-" | Mult => "*" | MatMult => "@" | Div => "/"
  | Mod => "%" | Pow => "**" | LShift => "<<" | RShift => ">>"
  | BitOr => "|" | BitXor => "^" | BitAnd => "&" | FloorDiv => "//"
  end.

Definition paren (b : bool) (text : string) : string :=
  if b then String.append "(" (String.append text ")") else text.

(** [ast.unparse] on names, integers, strings, binary operations and
    calls; ["?"] on the rest. *)
Fixpoint unparse_at (level : nat) (e : expr) : string :=
  match e with
  | Name id => id
  | Constant (CInt n) => NilZero.string_of_int (Z.to_int n)
  | Constant (CStr t) => String.append "'" (String.append t "'")
  | BinOp l op r =>
      let p := precedence op in
      let '(pl, pr) := match op with Pow => (S p, p) | _ => (p, S p) end in
      paren (p <? level)%nat
        (String.concat " " [unparse_at pl l; operator_text op; unparse_at pr r])
  | Call f args =>
      String.append (unparse_at 9 f)
        (paren true (String.concat ", " (map (unparse_at 0) args)))
  | _ => "?"
  end.

Definition unparse_expr : expr → string := unparse_at 0.

Definition unparse_stmt (s : stmt) : string :=
  match s with
  | Assign ts v _ =>
      String.concat " = " (map unparse_expr ts ++ [unparse_expr v])
  | Expr v => unparse_expr v
  | Pass => "pass"
  | _ => "?"
  end.

Definition ast_unparse (tree : module_) : string :=
  String.concat (String "010" EmptyString) (map unparse_stmt (mod_body tree)).

Definition sym : Type := string.

Definition sympify : string → option sym :=
  lookup_text
    [ ("2 + 3", "5"); ("4 * 5", "20"); ("y ** 3", "y**3");
      ("3 * y ** 2", "3*y**2") ].

Definition simplify (s : sym) : sym := s.
Definition factor (s : sym) : sym := s.
Definition expand (s : sym) : sym := s.

Definition sym_diff (s : sym) (name : string) : sym :=
  default "0" (lookup_text [ ("y**3|y", "3*y**2") ]
                 (String.append s (String "|" name))).

Definition sym_int (s : sym) (name : string) : sym :=
  default "0" (lookup_text [ ("3*y**2|y", "y**3"); ("y**3|y", "y**4/4") ]
                 (String.append s (String "|" name))).

Definition sym_str (s : sym) : string := s.

Definition unified_diff (before after name : string) : string :=
  if String.eqb before after then EmptyString
  else String.concat (String "010" EmptyString)
         [String.append "--- " name; "+++ optimized";
          String.append "-" before; String.append "+" after].

End Toy.

(** An engine that reads [2 + 3], answers [5], and knows nothing else. *)
Module ToyFold.

Definition sym : Type := unit.

Definition sympify (text : string) : option sym :=
  if String.eqb text "2 + 3" then Some () else None.

Definition simplify (s : sym) : sym := s.
Definition factor (s : sym) : sym := s.
Definition expand (s : sym) : sym := s.

Definition sym_str (s : sym) : string := "5".

(** [2 + 3] *)
Definition two_plus_three : expr := BinOp (Toy.int_ 2) Add (Toy.int_ 3).

End ToyFold.

(** ** The external collaborators *)

Section Program.

(** *** Syntax bridge: [ast.parse] and [ast.unparse] *)

(** [ast.parse]; [None] stands for a [SyntaxError]. *)
Variable ast_parse : string → option module_.
(** [ast.unparse] on a module and on an expression node. *)
Variable ast_unparse : module_ → string.
Variable unparse_expr : expr → string.

(** *** Symbolic engine: SymPy *)

Variable sym : Type.
(** [sympify]; [None] stands for the exception it raises on text it
    cannot read.  The transforms themselves are taken to return: the
    parse is the one error channel of the engine. *)
Variable sympify : string → option sym.
Variable simplify : sym → sym.
Variable factor : sym → sym.
Variable expand : sym → sym.
(** [diff(expr, name)] and [integrate(expr, name)]. *)
Variable sym_diff : sym → string → sym.
Variable sym_int : sym → string → sym.
(** [str] on a symbolic expression. *)
Variable sym_str : sym → string.

(** ** [ast.parse(text).body[0].value] *)

(** The attribute [value] of a statement node. *)
Definition stmt_value (s : stmt) : result expr :=
  match s with
  | Assign _ v _ => Ok v
  | AugAssign _ _ v => Ok v
  | Expr v => Ok v
  | If _ _ _ | While _ _ _ | FunctionDef _ _ _ | Pass => Raise AttributeError
  end.

Definition parse_value (text : string) : result expr :=
  tree ← or_raise SyntaxError (ast_parse text);
  first ← or_raise IndexError (head (mod_body tree));
  stmt_value first.

(** ** optimizer.py *)

(** [MathOptimizer.optimize_node], with [expand_polynomials] the field of
    the instance. *)
Definition optimize_node (expand_polynomials : bool) (node : expr) : result expr :=
  (* 1) turn AST node back into source *)
  let expr_str := unparse_expr node in
  (* 2) parse into SymPy *)
  sym_expr ← or_raise UnsupportedExpression (sympify expr_str);
  (* 3) transforms *)
  let folded := simplify sym_expr in
  let factored := factor folded in
  let final := if expand_polynomials then expand factored else factored in
  (* 4) back to AST *)
  parse_value (sym_str final).

(** The [Transformer] class of [optimize_tree]: [visit] dispatches on the
    class of the node; [visit_BinOp] is the only method the class
    defines, every other class falls to [NodeTransformer.generic_visit],
    which visits the child nodes field by field and stores the results
    back. *)
Fixpoint transformer_visit_expr (expand_polynomials : bool) (e : expr) : result expr :=
  let visit := transformer_visit_expr expand_polynomials in
  match e with
  | BinOp l op r =>
      (* node = self.generic_visit(node) *)
      l' ← visit l;
      r' ← visit r;
      (* return self.optimizer.optimize_node(node) *)
      optimize_node expand_polynomials (BinOp l' op r')
  | Name id => Ok (Name id)
  | Constant c => Ok (Constant c)
  | UnaryOp op e1 => e1' ← visit e1; Ok (UnaryOp op e1')
  | BoolOp op vs => vs' ← mapM_result visit vs; Ok (BoolOp op vs')
  | Compare l ops cs =>
      l' ← visit l; cs' ← mapM_result visit cs; Ok (Compare l' ops cs')
  | Call f args =>
      f' ← visit f; args' ← mapM_result visit args; Ok (Call f' args')
  | Attribute v a => v' ← visit v; Ok (Attribute v' a)
  | Subscript v s => v' ← visit v; s' ← visit s; Ok (Subscript v' s')
  | Tuple es => es' ← mapM_result visit es; Ok (Tuple es')
  | ListE es => es' ← mapM_result visit es; Ok (ListE es')
  end.

Fixpoint transformer_visit_stmt (expand_polynomials : bool) (s : stmt) : result stmt :=
  let visit := transformer_visit_expr expand_polynomials in
  let visit_s := transformer_visit_stmt expand_polynomials in
  match s with
  | Assign ts v n =>
      ts' ← mapM_result visit ts; v' ← visit v; Ok (Assign ts' v' n)
  | AugAssign t op v => t' ← visit t; v' ← visit v; Ok (AugAssign t' op v')
  | Expr v => v' ← visit v; Ok (Expr v')
  | If t b o =>
      t' ← visit t; b' ← mapM_result visit_s b; o' ← mapM_result visit_s o;
      Ok (If t' b' o')
  | While t b o =>
      t' ← visit t; b' ← mapM_result visit_s b; o' ← mapM_result visit_s o;
      Ok (While t' b' o')
  | FunctionDef n ps b => b' ← mapM_result visit_s b; Ok (FunctionDef n ps b')
  | Pass => Ok Pass
  end.

(** [MathOptimizer.optimize_tree]: [Transformer(self).visit(tree)]. *)
Definition optimize_tree (expand_polynomials : bool) (tree : module_) : result module_ :=
  body' ← mapM_result (transformer_visit_stmt expand_polynomials) (mod_body tree);
  Ok (Module_ body').

(** ** parser.py: [MathExtractor.extract] *)

(** [extract] returns the pair [(tree, self.nodes)] or raises, and leaves
    the instance in its new state. *)
Definition extract (source : string) (self : MathExtractor)
    : result (module_ * list expr) * MathExtractor :=
  match ast_parse source with
  | None => (Raise SyntaxError, self)
  | Some tree =>
      let self := extractor_visit tree self in
      (Ok (tree, nodes self), self)
  end.

(** ** main.py: [process_file] and its [CalcTransformer] *)

Section ProcessFile.

(** The class [CalcTransformer] is declared inside [process_file] and
    reads three of its arguments. *)
Variable diff_vars : gset string.
Variable int_vars : gset string.
Variable diff_lines : gset Z.

(** [visit_Assign] on a node given by its fields.  The value of an
    [Assign] node is always a node, so the test
    [isinstance(node.value, ast.AST)] is true. *)
Definition visit_Assign (targets : list expr) (value : expr) (lineno : Z) : result stmt :=
  (* Only single-target name assignments *)
  target ← or_raise IndexError (head targets);
  match target with
  | Name varname =>
      let do_diff := bool_decide (varname ∈ diff_vars)
        && (bool_decide (diff_lines = ∅) || bool_decide (lineno ∈ diff_lines)) in
      let do_int := bool_decide (varname ∈ int_vars)
        && (bool_decide (diff_lines = ∅) || bool_decide (lineno ∈ diff_lines)) in
      value ←
        (if do_diff then
           expr ← or_raise UnsupportedExpression (sympify (unparse_expr value));
           let der := sym_diff expr varname in
           parse_value (sym_str der)
         else Ok value);
      value ←
        (if do_int then
           expr ← or_raise UnsupportedExpression (sympify (unparse_expr value));
           let ant := sym_int expr varname in
           parse_value (sym_str ant)
         else Ok value);
      Ok (Assign targets value lineno)
  | _ => Ok (Assign targets value lineno)
  end.

(** [NodeTransformer.generic_visit] on an expression: the class defines
    no method for an expression class, so each child is visited in turn
    and stored back. *)
Fixpoint calc_visit_expr (e : expr) : expr :=
  match e with
  | Name id => Name id
  | Constant c => Constant c
  | BinOp l op r => BinOp (calc_visit_expr l) op (calc_visit_expr r)
  | UnaryOp op e1 => UnaryOp op (calc_visit_expr e1)
  | BoolOp op vs => BoolOp op (map calc_visit_expr vs)
  | Compare l ops cs => Compare (calc_visit_expr l) ops (map calc_visit_expr cs)
  | Call f args => Call (calc_visit_expr f) (map calc_visit_expr args)
  | Attribute v a => Attribute (calc_visit_expr v) a
  | Subscript v s => Subscript (calc_visit_expr v) (calc_visit_expr s)
  | Tuple es => Tuple (map calc_visit_expr es)
  | ListE es => ListE (map calc_visit_expr es)
  end.

(** [NodeTransformer.visit] on a statement: [visit_Assign] for an
    [Assign] node, [generic_visit] for the rest. *)
Fixpoint calc_visit_stmt (s : stmt) : result stmt :=
  match s with
  | Assign ts v n => visit_Assign ts v n
  | AugAssign t op v => Ok (AugAssign (calc_visit_expr t) op (calc_visit_expr v))
  | Expr v => Ok (Expr (calc_visit_expr v))
  | If t b o =>
      let t' := calc_visit_expr t in
      b' ← mapM_result calc_visit_stmt b;
      o' ← mapM_result calc_visit_stmt o;
      Ok (If t' b' o')
  | While t b o =>
      let t' := calc_visit_expr t in
      b' ← mapM_result calc_visit_stmt b;
      o' ← mapM_result calc_visit_stmt o;
      Ok (While t' b' o')
  | FunctionDef n ps b => b' ← mapM_result calc_visit_stmt b; Ok (FunctionDef n ps b')
  | Pass => Ok Pass
  end.

(** [CalcTransformer().visit(tree)]. *)
Definition calc_visit (tree : module_) : result module_ :=
  body' ← mapM_result calc_visit_stmt (mod_body tree);
  Ok (Module_ body').

(** [difflib.unified_diff] from the text before to the text after, for
    the file name given, joined into one string. *)
Variable unified_diff : string → string → string → string.

(** Steps 1 and 2 of [process_file] and the start of step 3: the text
    [full_src] and the tree [tree2] the optimizer starts from. *)
Definition source_tree (path : string) (w : world) : result (string * module_) :=
  src ← or_raise OSError (files w !! path);
  tree ← or_raise SyntaxError (ast_parse src);
  (* 2) Symbolic diff/int pass *)
  tree ←
    (if bool_decide (diff_vars ≠ ∅) || bool_decide (int_vars ≠ ∅)
        || bool_decide (diff_lines ≠ ∅)
     then calc_visit tree else Ok tree);
  (* 3) Math optimization *)
  let full_src := ast_unparse tree in
  let extractor := MathExtractor_init in
  '(tree2, _) ← fst (extract full_src extractor);
  Ok (full_src, tree2).

Definition process_file (path : string) (expand_polynomials inplace show_diff : bool)
    (w : world) : result unit * world :=
  match
    '(full_src, tree2) ← source_tree path w;
    tree3 ← optimize_tree expand_polynomials tree2;
    Ok (full_src, ast_unparse tree3)
  with
  | Raise e => (Raise e, w)
  | Ok (full_src, optimized) =>
      (* 4) Output *)
      if inplace then
        (Ok (), {| files := <[path := optimized]> (files w);
                   console := console w ++ [Updated path] |})
      else if show_diff then
        let diff_txt := unified_diff full_src optimized path in
        let diff_txt :=
          if decide (diff_txt = EmptyString) then "[italic]No changes[/italic]"
          else diff_txt in
        (Ok (), {| files := files w; console := console w ++ [DiffPanel path diff_txt] |})
      else
        (Ok (), {| files := files w; console := console w ++ [CodePanel path optimized] |})
  end.

End ProcessFile.

(** ** main.py: [main] *)

Section Main.

Variable unified_diff : string → string → string → string.

(** [[target] if target.is_file() else sorted(target.glob(...))]: the
    files a target stands for, with or without recursion, as the file
    system has them when the run starts. *)
Variable target_paths : string → bool → world → list string.

(** The loop [for path in paths: process_file(...)]: the first
    exception ends it. *)
Definition process_files (diff_vars int_vars : gset string) (diff_lines : gset Z)
    (expand_polynomials inplace show_diff : bool)
    : list string → world → result unit * world :=
  fix go (paths : list string) (w : world) : result unit * world :=
    match paths with
    | [] => (Ok (), w)
    | path :: paths' =>
        match process_file diff_vars int_vars diff_lines unified_diff
                path expand_polynomials inplace show_diff w with
        | (Ok _, w') => go paths' w'
        | (Raise e, w') => (Raise e, w')
        end
    end.

(** [main], after the command line is read into its arguments. *)
Definition main (target : string) (expand_flag : bool)
    (differentiate integrate : list string) (diff_lines : string)
    (inplace recursive diff : bool) (w : world) : result unit * world :=
  let diff_vars : gset string := list_to_set differentiate in
  let int_vars : gset string := list_to_set integrate in
  match
    (if decide (diff_lines = EmptyString) then Ok ∅ else parse_line_set diff_lines)
  with
  | Raise e => (Raise e, w)
  | Ok lines_set =>
      let paths := target_paths target recursive w in
      process_files diff_vars int_vars lines_set expand_flag inplace diff paths w
  end.

End Main.

(** The two rewrites of [visit_Assign], named for the statements below:
    render the value, read it into the engine, differentiate (or
    integrate) by the name, render the result and parse it back. *)
Definition derivative_of (varname : string) (value : expr) : result expr :=
  expr ← or_raise UnsupportedExpression (sympify (unparse_expr value));
  parse_value (sym_str (sym_diff expr varname)).

Definition antiderivative_of (varname : string) (value : expr) : result expr :=
  expr ← or_raise UnsupportedExpression (sympify (unparse_expr value));
  parse_value (sym_str (sym_int expr varname)).

(** The result of the transform chain of [optimize_node] on a symbolic
    expression. *)
Definition pipeline (expand_polynomials : bool) (s : sym) : sym :=
  if expand_polynomials then expand (factor (simplify s)) else factor (simplify s).

(** The exceptions the engine round trip of a node can end in: the
    engine rejects the text of the node, or the text of an engine result
    does not parse back into an expression. *)
Definition engine_raise (x : exn) : Prop :=
  x = UnsupportedExpression ∨ ∃ s, parse_value (sym_str s) = Raise x.

(** Every binary-operation node among [es] is left as it is by
    [optimize_node]. *)
Definition stable (expand_polynomials : bool) (es : list expr) : Prop :=
  ∀ b, b ∈ es → is_BinOp b = true → optimize_node expand_polynomials b = Ok b.

(** * Properties *)

(** ** Loops that may raise *)

Lemma mapM_result_id {A} (f : A → result A) (l : list A) :
  Forall (λ x, f x = Ok x) l → mapM_result f l = Ok l.
Proof.
  induction 1 as [|x l Hx _ IH]; simpl; [done|].
  by rewrite Hx, IH.
Qed.

Lemma mapM_result_raises {A B} (f : A → result B) (l : list A) :
  Exists (λ x, raises (f x)) l → raises (mapM_result f l).
Proof.
  induction 1 as [x l [e Hx]|x l _ [e IH]]; simpl.
  - rewrite Hx. by exists e.
  - rewrite IH. destruct (f x) as [y|e']; [by exists e|by exists e'].
Qed.

Lemma mapM_result_Ok_inv {A B} (f : A → result B) (l : list A) (k : list B) :
  mapM_result f l = Ok k → Forall2 (λ a b, f a = Ok b) l k.
Proof.
  revert k. induction l as [|a l IH]; simpl; intros k.
  - intros [= <-]. constructor.
  - destruct (f a) as [b|] eqn:Ha; [|done].
    destruct (mapM_result f l) as [k'|]; [|done].
    intros [= <-]. constructor; auto.
Qed.

Lemma bind_raises_l {A B} (m : result A) (k : A → result B) :
  raises m → raises (m ≫= k).
Proof. intros [e ->]. by exists e. Qed.

Lemma bind_raises_r {A B} (m : result A) (k : A → result B) :
  (∀ a, raises (k a)) → raises (m ≫= k).
Proof. intros Hk. destruct m as [a|e]; [apply Hk|by exists e]. Qed.

Lemma bind_raise_inv {A B} (m : result A) (k : A → result B) (x : exn) :
  m ≫= k = Raise x → m = Raise x ∨ ∃ a, m = Ok a ∧ k a = Raise x.
Proof. destruct m as [a|e]; simpl; [right; by exists a|left; congruence]. Qed.

Lemma mapM_result_raise_inv {A B} (f : A → result B) (l : list A) (x : exn) :
  mapM_result f l = Raise x → Exists (λ a, f a = Raise x) l.
Proof.
  induction l as [|a l IH]; simpl; [done|].
  destruct (f a) as [b|e] eqn:Ha; [|intros [= <-]; by left].
  destruct (mapM_result f l) as [k|e]; [done|].
  intros [= <-]. right. by apply IH.
Qed.

(** ** Trees without binary operations *)

Lemma filter_app_nil {A} (p : A → bool) (l k : list A) :
  List.filter p (l ++ k) = [] ↔ List.filter p l = [] ∧ List.filter p k = [].
Proof.
  rewrite List.filter_app. split; [apply app_eq_nil|].
  by intros [-> ->].
Qed.

Lemma filter_flat_map_nil {A B} (p : B → bool) (f : A → list B) (l : list A) :
  List.filter p (flat_map f l) = [] ↔ Forall (λ x, List.filter p (f x) = []) l.
Proof.
  induction l as [|x l IH]; simpl.
  - split; [constructor|done].
  - rewrite filter_app_nil, Forall_cons, IH. done.
Qed.

Lemma mapM_result_no_binop {A} (f : A → result A) (g : A → list expr) (l : list A) :
  Forall (λ x, List.filter is_BinOp (g x) = [] → f x = Ok x) l →
  List.filter is_BinOp (flat_map g l) = [] →
  mapM_result f l = Ok l.
Proof.
  intros IH Hnil. apply mapM_result_id.
  apply filter_flat_map_nil in Hnil.
  revert Hnil. induction IH as [|x l Hx _ IHl]; intros Hnil; [constructor|].
  apply Forall_cons in Hnil as [Hx' Hl]. constructor; auto.
Qed.

Lemma transformer_visit_expr_no_binop (expand_polynomials : bool) (e : expr) :
  List.filter is_BinOp (subexprs e) = [] →
  transformer_visit_expr expand_polynomials e = Ok e.
Proof.
  induction e as
    [id|c|l op r IHl IHr|op e IHe|op vs IHvs|l ops cs IHl IHcs|f args IHf IHargs
    |v a IHv|v sl IHv IHsl|es IHes|es IHes] using expr_nested_ind;
    cbn [subexprs List.filter is_BinOp transformer_visit_expr]; intros Hnil;
    try discriminate; try done.
  - by rewrite (IHe Hnil).
  - by rewrite (mapM_result_no_binop _ _ _ IHvs Hnil).
  - apply filter_app_nil in Hnil as [Hl Hcs].
    by rewrite (IHl Hl), (mapM_result_no_binop _ _ _ IHcs Hcs).
  - apply filter_app_nil in Hnil as [Hf Hargs].
    by rewrite (IHf Hf), (mapM_result_no_binop _ _ _ IHargs Hargs).
  - by rewrite (IHv Hnil).
  - apply filter_app_nil in Hnil as [Hv Hsl].
    by rewrite (IHv Hv), (IHsl Hsl).
  - by rewrite (mapM_result_no_binop _ _ _ IHes Hnil).
  - by rewrite (mapM_result_no_binop _ _ _ IHes Hnil).
Qed.

Lemma transformer_visit_exprs_no_binop (expand_polynomials : bool) (es : list expr) :
  List.filter is_BinOp (flat_map subexprs es) = [] →
  mapM_result (transformer_visit_expr expand_polynomials) es = Ok es.
Proof.
  apply mapM_result_no_binop, Forall_forall.
  intros e _. apply transformer_visit_expr_no_binop.
Qed.

Lemma transformer_visit_stmt_no_binop (expand_polynomials : bool) (s : stmt) :
  List.filter is_BinOp (stmt_exprs s) = [] →
  transformer_visit_stmt expand_polynomials s = Ok s.
Proof.
  induction s as [ts v n|t op v|v|t b o IHb IHo|t b o IHb IHo|n ps b IHb|]
    using stmt_nested_ind;
    cbn [stmt_exprs transformer_visit_stmt]; intros Hnil; try done.
  - apply filter_app_nil in Hnil as [Hts Hv].
    by rewrite (transformer_visit_exprs_no_binop _ _ Hts),
      (transformer_visit_expr_no_binop _ _ Hv).
  - apply filter_app_nil in Hnil as [Ht Hv].
    by rewrite !transformer_visit_expr_no_binop.
  - by rewrite transformer_visit_expr_no_binop.
  - apply filter_app_nil in Hnil as [Ht [Hb Ho]%filter_app_nil].
    by rewrite (transformer_visit_expr_no_binop _ _ Ht),
      (mapM_result_no_binop _ _ _ IHb Hb), (mapM_result_no_binop _ _ _ IHo Ho).
  - apply filter_app_nil in Hnil as [Ht [Hb Ho]%filter_app_nil].
    by rewrite (transformer_visit_expr_no_binop _ _ Ht),
      (mapM_result_no_binop _ _ _ IHb Hb), (mapM_result_no_binop _ _ _ IHo Ho).
  - by rewrite (mapM_result_no_binop _ _ _ IHb Hnil).
Qed.

(** C3.  On a tree that contains no binary-operation node, whatever the
    expand flag, [optimize_tree] raises nothing and returns the tree it
    was given: names, constants, calls, comparisons and the statements
    around them are left as they are, so that rendering the result is
    rendering the input.  The same holds statement by statement: a
    statement without a binary operation is returned as it is, whatever
    stands next to it. *)
Theorem optimize_tree_no_binop (expand_polynomials : bool) (tree : module_) :
  binops tree = [] →
  optimize_tree expand_polynomials tree = Ok tree
  ∧ ast_unparse <$> optimize_tree expand_polynomials tree = Ok (ast_unparse tree)
  ∧ ∀ s, List.filter is_BinOp (stmt_exprs s) = [] →
         transformer_visit_stmt expand_polynomials s = Ok s.
Proof.
  intros Hnil. unfold binops, module_exprs in Hnil.
  assert (optimize_tree expand_polynomials tree = Ok tree) as ->.
  { destruct tree as [body]. unfold optimize_tree. simpl in *.
    rewrite (mapM_result_no_binop _ stmt_exprs); [done| |done].
    apply Forall_forall. intros s _. apply transformer_visit_stmt_no_binop. }
  split_and!; [done..|]. apply transformer_visit_stmt_no_binop.
Qed.

(** ** The extractor *)

Lemma segment_refl {A} (l : list A) : segment l l.
Proof. exists [], []. by rewrite app_nil_r. Qed.

Lemma segment_app_l {A} (k l1 l2 : list A) : segment k l1 → segment k (l1 ++ l2).
Proof.
  intros (pre & post & ->). exists pre, (post ++ l2). by rewrite <- !app_assoc.
Qed.

Lemma segment_app_r {A} (k l1 l2 : list A) : segment k l2 → segment k (l1 ++ l2).
Proof. intros (pre & post & ->). exists (l1 ++ pre), post. by rewrite <- app_assoc. Qed.

Lemma segment_cons {A} (k l : list A) (x : A) : segment k l → segment k (x :: l).
Proof. apply (segment_app_r k [x] l). Qed.

Lemma segment_flat_map {A B} (f : A → list B) (k : list B) (l : list A) :
  Exists (λ x, segment k (f x)) l → segment k (flat_map f l).
Proof.
  induction 1 as [x l Hx|x l _ IH]; simpl.
  - by apply segment_app_l.
  - by apply segment_app_r.
Qed.

Lemma segment_filter {A} (p : A → bool) (k l : list A) :
  segment k l → segment (List.filter p k) (List.filter p l).
Proof.
  intros (pre & post & ->). exists (List.filter p pre), (List.filter p post).
  by rewrite !List.filter_app.
Qed.

Lemma elem_of_flat_map {A B} (f : A → list B) (l : list A) (y : B) :
  y ∈ flat_map f l ↔ Exists (λ x, y ∈ f x) l.
Proof.
  induction l as [|x l IH]; simpl.
  - rewrite Exists_nil. apply elem_of_nil.
  - by rewrite elem_of_app, Exists_cons, IH.
Qed.

Lemma Exists_Forall_impl {A} (P Q : A → Prop) (l : list A) :
  Forall (λ x, P x → Q x) l → Exists P l → Exists Q l.
Proof.
  intros HF HE. induction HE as [x l Hx|x l _ IH];
    apply Forall_cons in HF as [Hx' Hl]; [left|right]; auto.
Qed.

(** The nodes of a subtree stand together in the list of its tree. *)
Lemma subexprs_segment (e sub : expr) :
  sub ∈ subexprs e → segment (subexprs sub) (subexprs e).
Proof.
  induction e as
    [id|c|l op r IHl IHr|op e IHe|op vs IHvs|l ops cs IHl IHcs|f args IHf IHargs
    |v a IHv|v sl IHv IHsl|es IHes|es IHes] using expr_nested_ind;
    intros [->|Hin]%elem_of_cons; try apply segment_refl;
    cbn [subexprs] in *; apply segment_cons;
    repeat match goal with
    | H : _ ∈ [] |- _ => by apply elem_of_nil in H
    | H : _ ∈ _ ++ _ |- _ => apply elem_of_app in H as [H|H]
    | H : _ ∈ flat_map _ _ |- _ => apply elem_of_flat_map in H
    end;
    auto using segment_app_l, segment_app_r;
    try (apply segment_flat_map || (apply segment_app_r, segment_flat_map));
    match goal with
    | IH : Forall _ ?l, H : Exists _ ?l |- Exists _ ?l =>
        exact (Exists_Forall_impl _ _ l IH H)
    end.
Qed.

Lemma stmt_exprs_segment (s : stmt) (sub : expr) :
  sub ∈ stmt_exprs s → segment (subexprs sub) (stmt_exprs s).
Proof.
  assert (Hes : ∀ es, sub ∈ flat_map subexprs es →
    segment (subexprs sub) (flat_map subexprs es)).
  { intros es H%elem_of_flat_map. apply segment_flat_map.
    eapply Exists_impl; [exact H|]. auto using subexprs_segment. }
  assert (Hss : ∀ ss,
    Forall (λ s, sub ∈ stmt_exprs s → segment (subexprs sub) (stmt_exprs s)) ss →
    sub ∈ flat_map stmt_exprs ss →
    segment (subexprs sub) (flat_map stmt_exprs ss)).
  { intros ss IH H%elem_of_flat_map. apply segment_flat_map.
    exact (Exists_Forall_impl _ _ ss IH H). }
  induction s as [ts v n|t op v|v|t b o IHb IHo|t b o IHb IHo|n ps b IHb|]
    using stmt_nested_ind; cbn [stmt_exprs]; intros Hin.
  - apply elem_of_app in Hin as [Hin|Hin];
      auto using segment_app_l, segment_app_r, subexprs_segment.
  - apply elem_of_app in Hin as [Hin|Hin];
      auto using segment_app_l, segment_app_r, subexprs_segment.
  - auto using subexprs_segment.
  - apply elem_of_app in Hin as [Hin|[Hin|Hin]%elem_of_app];
      auto 6 using segment_app_l, segment_app_r, subexprs_segment.
  - apply elem_of_app in Hin as [Hin|[Hin|Hin]%elem_of_app];
      auto 6 using segment_app_l, segment_app_r, subexprs_segment.
  - auto.
  - by apply elem_of_nil in Hin.
Qed.

Lemma module_exprs_segment (tree : module_) (sub : expr) :
  sub ∈ module_exprs tree → segment (subexprs sub) (module_exprs tree).
Proof.
  unfold module_exprs. intros Hin%elem_of_flat_map.
  apply segment_flat_map. eapply Exists_impl; [exact Hin|].
  auto using stmt_exprs_segment.
Qed.

Lemma extractor_fold_spec {A} (visit : A → MathExtractor → MathExtractor)
    (g : A → list expr) (l : list A) :
  Forall (λ x, ∀ self, visit x self =
    {| nodes := nodes self ++ List.filter is_BinOp (g x) |}) l →
  ∀ self, fold_left (λ self x, visit x self) l self =
    {| nodes := nodes self ++ List.filter is_BinOp (flat_map g l) |}.
Proof.
  induction 1 as [|x l Hx _ IH]; intros [ns]; simpl.
  - by rewrite app_nil_r.
  - rewrite Hx, IH. simpl. by rewrite List.filter_app, app_assoc.
Qed.

Lemma extractor_visit_expr_spec (e : expr) (self : MathExtractor) :
  extractor_visit_expr e self =
    {| nodes := nodes self ++ List.filter is_BinOp (subexprs e) |}.
Proof.
  revert self. induction e as
    [id|c|l op r IHl IHr|op e IHe|op vs IHvs|l ops cs IHl IHcs|f args IHf IHargs
    |v a IHv|v sl IHv IHsl|es IHes|es IHes] using expr_nested_ind;
    intros [ns]; cbn [extractor_visit_expr subexprs List.filter is_BinOp nodes];
    rewrite ?IHl, ?IHr, ?IHe, ?IHf, ?IHv, ?IHsl;
    rewrite ?(extractor_fold_spec extractor_visit_expr subexprs) by done;
    cbn [nodes]; rewrite ?List.filter_app, ?app_nil_r, <- ?app_assoc; done.
Qed.

Lemma extractor_visit_stmt_spec (s : stmt) (self : MathExtractor) :
  extractor_visit_stmt s self =
    {| nodes := nodes self ++ List.filter is_BinOp (stmt_exprs s) |}.
Proof.
  assert (Hes : ∀ es : list expr, Forall (λ x, ∀ self, extractor_visit_expr x self =
    {| nodes := nodes self ++ List.filter is_BinOp (subexprs x) |}) es).
  { intros es. apply Forall_forall. auto using extractor_visit_expr_spec. }
  revert self.
  induction s as [ts v n|t op v|v|t b o IHb IHo|t b o IHb IHo|n ps b IHb|]
    using stmt_nested_ind;
    intros [ns]; cbn [extractor_visit_stmt stmt_exprs nodes];
    rewrite ?(extractor_fold_spec extractor_visit_expr subexprs) by done;
    rewrite ?extractor_visit_expr_spec;
    rewrite ?(extractor_fold_spec extractor_visit_stmt stmt_exprs) by done;
    rewrite ?(extractor_fold_spec extractor_visit_stmt stmt_exprs) by done;
    cbn [nodes List.filter]; rewrite ?List.filter_app, ?app_nil_r, <- ?app_assoc; done.
Qed.

Lemma extractor_visit_spec (tree : module_) (self : MathExtractor) :
  extractor_visit tree self = {| nodes := nodes self ++ binops tree |}.
Proof.
  unfold extractor_visit, binops, module_exprs.
  apply (extractor_fold_spec extractor_visit_stmt stmt_exprs), Forall_forall.
  auto using extractor_visit_stmt_spec.
Qed.

Lemma extract_spec (source : string) (tree : module_) (self : MathExtractor) :
  ast_parse source = Some tree →
  extract source self =
    (Ok (tree, nodes self ++ binops tree), {| nodes := nodes self ++ binops tree |}).
Proof. intros Hparse. unfold extract. by rewrite Hparse, extractor_visit_spec. Qed.

(** C4.  For a source text that parses to [tree], [extract] returns
    [tree] itself, untouched, and a list that ends with the
    binary-operation nodes of [tree] and nothing else: every
    binary-operation node of the tree is in it; each such node stands
    right before the binary-operation nodes of its left operand, which
    stand before those of its right operand (parent before child); the
    visit writes to no node.  On a fresh instance the list is exactly
    these nodes. *)
Theorem extract_preorder (source : string) (tree : module_) (self : MathExtractor) :
  ast_parse source = Some tree →
  fst (extract source self) = Ok (tree, nodes self ++ binops tree)
  ∧ fst (extract source MathExtractor_init) = Ok (tree, binops tree)
  ∧ (∀ e, e ∈ binops tree ↔ e ∈ module_exprs tree ∧ is_BinOp e = true)
  ∧ (∀ l op r, BinOp l op r ∈ module_exprs tree →
       segment (BinOp l op r :: List.filter is_BinOp (subexprs l)
                  ++ List.filter is_BinOp (subexprs r))
               (binops tree)).
Proof.
  intros Hparse. rewrite !(extract_spec _ _ _ Hparse). split_and!; try done.
  - intros e. unfold binops. rewrite !list_elem_of_In, List.filter_In. done.
  - intros l op r Hin%module_exprs_segment.
    apply (segment_filter is_BinOp) in Hin. unfold binops.
    cbn [subexprs List.filter is_BinOp] in Hin.
    by rewrite List.filter_app in Hin.
Qed.

(** C10.  The list of an instance grows from call to call.  After a
    first call on a fresh instance, which returns exactly the
    binary-operation nodes of its source, a second call on the same
    instance returns the nodes of the first source followed by those of
    the second; in general a call returns what the instance held before
    followed by the nodes of the new source, which is the nodes of the
    new source alone exactly when the instance held none, as a fresh one
    does. *)
Theorem extract_accumulates (source1 source2 : string) (tree1 tree2 : module_) :
  ast_parse source1 = Some tree1 →
  ast_parse source2 = Some tree2 →
  let first := extract source1 MathExtractor_init in
  let second := extract source2 (snd first) in
  fst first = Ok (tree1, binops tree1)
  ∧ fst second = Ok (tree2, binops tree1 ++ binops tree2)
  ∧ (∀ self, fst (extract source2 self) = Ok (tree2, nodes self ++ binops tree2))
  ∧ (∀ self, fst (extract source2 self) = Ok (tree2, binops tree2) ↔ nodes self = []).
Proof.
  intros Hparse1 Hparse2. cbv zeta.
  rewrite (extract_spec _ _ _ Hparse1). cbn [fst snd].
  split_and!; [done|..]; try intros self; rewrite (extract_spec _ _ _ Hparse2);
    try done.
  cbn [fst]. split.
  - intros [= H]. by apply (app_inv_tail (binops tree2) _ []).
  - by intros ->.
Qed.

(** ** The optimizer *)

Lemma optimize_node_pipeline (expand_polynomials : bool) (node : expr) :
  optimize_node expand_polynomials node =
    (s ← or_raise UnsupportedExpression (sympify (unparse_expr node));
     parse_value (sym_str (pipeline expand_polynomials s))).
Proof. unfold optimize_node, pipeline. by destruct expand_polynomials. Qed.


(** An exception in a subtree is an exception of the whole visit. *)
Lemma transformer_visit_expr_raises (expand_polynomials : bool) (e sub : expr) :
  sub ∈ subexprs e →
  raises (transformer_visit_expr expand_polynomials sub) →
  raises (transformer_visit_expr expand_polynomials e).
Proof.
  intros Hin Hsub. induction e as
    [id|c|l op r IHl IHr|op e IHe|op vs IHvs|l ops cs IHl IHcs|f args IHf IHargs
    |v a IHv|v sl IHv IHsl|es IHes|es IHes] using expr_nested_ind;
    apply elem_of_cons in Hin as [->|Hin]; try done;
    cbn [subexprs] in Hin; cbn [transformer_visit_expr];
    repeat match goal with
    | H : _ ∈ [] |- _ => by apply elem_of_nil in H
    | H : _ ∈ _ ++ _ |- _ => apply elem_of_app in H as [H|H]
    | H : _ ∈ flat_map _ _ |- _ => apply elem_of_flat_map in H
    | IH : Forall _ ?l, H : Exists _ ?l |- _ =>
        apply (Exists_Forall_impl _ _ l IH), mapM_result_raises in H; clear IH
    end;
    repeat first
      [ by (apply bind_raises_l; auto)
      | apply bind_raises_r; intros ? ].
Qed.

Lemma transformer_visit_stmt_raises (expand_polynomials : bool) (s : stmt) (sub : expr) :
  sub ∈ stmt_exprs s →
  raises (transformer_visit_expr expand_polynomials sub) →
  raises (transformer_visit_stmt expand_polynomials s).
Proof.
  intros Hin Hsub.
  assert (Hes : ∀ es, sub ∈ flat_map subexprs es →
    raises (mapM_result (transformer_visit_expr expand_polynomials) es)).
  { intros es H%elem_of_flat_map. apply mapM_result_raises.
    eapply Exists_impl; [exact H|].
    intros x Hx. by apply (transformer_visit_expr_raises _ x sub). }
  induction s as [ts v n|t op v|v|t b o IHb IHo|t b o IHb IHo|n ps b IHb|]
    using stmt_nested_ind;
    cbn [stmt_exprs] in Hin; cbn [transformer_visit_stmt];
    repeat match goal with
    | H : _ ∈ [] |- _ => by apply elem_of_nil in H
    | H : _ ∈ _ ++ _ |- _ => apply elem_of_app in H as [H|H]
    | H : _ ∈ flat_map stmt_exprs _ |- _ => apply elem_of_flat_map in H
    | H : _ ∈ flat_map subexprs _ |- _ => apply Hes in H
    | H : _ ∈ subexprs _ |- _ =>
        apply (λ H', transformer_visit_expr_raises expand_polynomials _ _ H' Hsub) in H
    | IH : Forall _ ?l, H : Exists _ ?l |- _ =>
        apply (Exists_Forall_impl _ _ l IH), mapM_result_raises in H; clear IH
    end;
    repeat first
      [ by (apply bind_raises_l; auto)
      | apply bind_raises_r; intros ? ].
Qed.

Lemma optimize_tree_raises (expand_polynomials : bool) (tree : module_) (sub : expr) :
  sub ∈ module_exprs tree →
  raises (transformer_visit_expr expand_polynomials sub) →
  raises (optimize_tree expand_polynomials tree).
Proof.
  intros Hin%elem_of_flat_map Hsub. unfold optimize_tree.
  apply bind_raises_l, mapM_result_raises.
  eapply Exists_impl; [exact Hin|].
  intros x Hx. by apply (transformer_visit_stmt_raises _ x sub).
Qed.

Lemma optimize_node_raise (expand_polynomials : bool) (node : expr) (x : exn) :
  optimize_node expand_polynomials node = Raise x → engine_raise x.
Proof.
  rewrite optimize_node_pipeline. intros [H|(s & Hs & H)]%bind_raise_inv.
  - left. destruct (sympify _); by inversion H.
  - right. eauto.
Qed.

Lemma transformer_visit_expr_raise (expand_polynomials : bool) (e : expr) (x : exn) :
  transformer_visit_expr expand_polynomials e = Raise x → engine_raise x.
Proof.
  induction e as
    [id|c|l op r IHl IHr|op e IHe|op vs IHvs|l ops cs IHl IHcs|f args IHf IHargs
    |v a IHv|v sl IHv IHsl|es IHes|es IHes] using expr_nested_ind;
    cbn [transformer_visit_expr]; intros H; try done;
    repeat match goal with
    | H : _ ≫= _ = Raise _ |- _ => apply bind_raise_inv in H as [H|(? & _ & H)]
    | H : mapM_result _ ?l = Raise _, IH : Forall _ ?l |- _ =>
        apply mapM_result_raise_inv in H;
        apply (Exists_Forall_impl _ _ l IH), Exists_exists in H as (? & _ & H)
    end;
    eauto using optimize_node_raise; done.
Qed.

Lemma transformer_visit_stmt_raise (expand_polynomials : bool) (s : stmt) (x : exn) :
  transformer_visit_stmt expand_polynomials s = Raise x → engine_raise x.
Proof.
  induction s as [ts v n|t op v|v|t b o IHb IHo|t b o IHb IHo|n ps b IHb|]
    using stmt_nested_ind;
    cbn [transformer_visit_stmt]; intros H; try done;
    repeat match goal with
    | H : _ ≫= _ = Raise _ |- _ => apply bind_raise_inv in H as [H|(? & _ & H)]
    | H : mapM_result (transformer_visit_expr _) _ = Raise _ |- _ =>
        apply mapM_result_raise_inv, Exists_exists in H as (? & _ & H)
    | H : mapM_result _ ?l = Raise _, IH : Forall _ ?l |- _ =>
        apply mapM_result_raise_inv in H;
        apply (Exists_Forall_impl _ _ l IH), Exists_exists in H as (? & _ & H)
    end;
    eauto using transformer_visit_expr_raise; done.
Qed.

Lemma optimize_tree_raise (expand_polynomials : bool) (tree : module_) (x : exn) :
  optimize_tree expand_polynomials tree = Raise x → engine_raise x.
Proof.
  unfold optimize_tree. intros [H|(? & _ & H)]%bind_raise_inv; [|done].
  apply mapM_result_raise_inv, Exists_exists in H as (s & _ & H).
  eauto using transformer_visit_stmt_raise.
Qed.


(** ** A second run of the optimizer *)

Lemma stable_app (expand_polynomials : bool) (es1 es2 : list expr) :
  stable expand_polynomials (es1 ++ es2) ↔
  stable expand_polynomials es1 ∧ stable expand_polynomials es2.
Proof.
  unfold stable. split.
  - intros H. split; intros b Hb; apply H, elem_of_app; auto.
  - intros [H1 H2] b [Hb|Hb]%elem_of_app; auto.
Qed.

Lemma stable_cons (expand_polynomials : bool) (e : expr) (es : list expr) :
  stable expand_polynomials (e :: es) ↔
  (is_BinOp e = true → optimize_node expand_polynomials e = Ok e)
  ∧ stable expand_polynomials es.
Proof.
  unfold stable. split.
  - intros H. split; [apply H; by left|]. intros b Hb. apply H. by right.
  - intros [H1 H2] b [->|Hb]%elem_of_cons; auto.
Qed.

Lemma stable_flat_map {A} (expand_polynomials : bool) (g : A → list expr) (l : list A) :
  stable expand_polynomials (flat_map g l) ↔
  Forall (λ x, stable expand_polynomials (g x)) l.
Proof.
  induction l as [|x l IH]; simpl.
  - split; [constructor|]. intros _ b Hb. by apply elem_of_nil in Hb.
  - by rewrite stable_app, Forall_cons, IH.
Qed.

Lemma mapM_result_stable {A} (expand_polynomials : bool) (f : A → result A)
    (g : A → list expr) (l : list A) :
  Forall (λ x, stable expand_polynomials (g x) → f x = Ok x) l →
  stable expand_polynomials (flat_map g l) →
  mapM_result f l = Ok l.
Proof.
  intros IH Hst%stable_flat_map. apply mapM_result_id.
  induction IH as [|x l Hx _ IHl]; [constructor|].
  apply Forall_cons in Hst as [Hx' Hl]. constructor; auto.
Qed.

(** A tree whose binary operations are all left alone by
    [optimize_node] is left alone by the visit. *)
Lemma transformer_visit_expr_stable (expand_polynomials : bool) (e : expr) :
  stable expand_polynomials (subexprs e) →
  transformer_visit_expr expand_polynomials e = Ok e.
Proof.
  induction e as
    [id|c|l op r IHl IHr|op e IHe|op vs IHvs|l ops cs IHl IHcs|f args IHf IHargs
    |v a IHv|v sl IHv IHsl|es IHes|es IHes] using expr_nested_ind;
    cbn [subexprs transformer_visit_expr];
    intros [Hnode Hsub]%stable_cons; try done;
    repeat match goal with
    | H : stable _ (_ ++ _) |- _ => apply stable_app in H as [? ?]
    end;
    rewrite ?IHl, ?IHr, ?IHe, ?IHf, ?IHv, ?IHsl by done;
    rewrite ?(mapM_result_stable _ _ subexprs) by done;
    simpl; auto.
Qed.

Lemma transformer_visit_stmt_stable (expand_polynomials : bool) (s : stmt) :
  stable expand_polynomials (stmt_exprs s) →
  transformer_visit_stmt expand_polynomials s = Ok s.
Proof.
  assert (Hes : ∀ es, stable expand_polynomials (flat_map subexprs es) →
    mapM_result (transformer_visit_expr expand_polynomials) es = Ok es).
  { intros es. apply mapM_result_stable, Forall_forall.
    auto using transformer_visit_expr_stable. }
  induction s as [ts v n|t op v|v|t b o IHb IHo|t b o IHb IHo|n ps b IHb|]
    using stmt_nested_ind;
    cbn [stmt_exprs transformer_visit_stmt]; intros Hst; try done;
    repeat match goal with
    | H : stable _ (_ ++ _) |- _ => apply stable_app in H as [? ?]
    end;
    rewrite ?Hes by done;
    rewrite ?transformer_visit_expr_stable by done;
    rewrite ?(mapM_result_stable _ _ stmt_exprs) by done;
    done.
Qed.

Section SecondRun.

Variable expand_polynomials : bool.

(** What the claim of a fixed point asks of the engine: in the
    expression read back from a result of the transform chain, every
    binary operation is returned as it is by [optimize_node]. *)
Hypothesis results_stable : ∀ s e,
  parse_value (sym_str (pipeline expand_polynomials s)) = Ok e →
  stable expand_polynomials (subexprs e).

Lemma mapM_result_output_stable {A} (f : A → result A) (g : A → list expr)
    (l k : list A) :
  Forall (λ x, ∀ y, f x = Ok y → stable expand_polynomials (g y)) l →
  mapM_result f l = Ok k →
  stable expand_polynomials (flat_map g k).
Proof.
  intros IH H%mapM_result_Ok_inv. apply stable_flat_map.
  induction H as [|x y l k Hxy _ IHk]; [constructor|].
  apply Forall_cons in IH as [Hx Hl]. constructor; auto.
Qed.

Lemma transformer_visit_expr_output_stable (e e' : expr) :
  transformer_visit_expr expand_polynomials e = Ok e' →
  stable expand_polynomials (subexprs e').
Proof.
  revert e'. induction e as
    [id|c|l op r IHl IHr|op e IHe|op vs IHvs|l ops cs IHl IHcs|f args IHf IHargs
    |v a IHv|v sl IHv IHsl|es IHes|es IHes] using expr_nested_ind;
    intros e'; cbn [transformer_visit_expr];
    repeat match goal with
    | |- (?m ≫= _) = Ok _ → _ => destruct m eqn:?; simpl; [|done]
    end.
  3: { rewrite optimize_node_pipeline.
       destruct (sympify _) as [s|]; simpl; [|done]. apply results_stable. }
  all: intros [= <-]; cbn [subexprs]; apply stable_cons; split; [done|];
    rewrite ?stable_app; repeat split;
    eauto using mapM_result_output_stable.
  all: intros b Hb; by apply elem_of_nil in Hb.
Qed.

Lemma transformer_visit_stmt_output_stable (s s' : stmt) :
  transformer_visit_stmt expand_polynomials s = Ok s' →
  stable expand_polynomials (stmt_exprs s').
Proof.
  assert (Hes : ∀ es es',
    mapM_result (transformer_visit_expr expand_polynomials) es = Ok es' →
    stable expand_polynomials (flat_map subexprs es')).
  { intros es es'. apply mapM_result_output_stable, Forall_forall.
    eauto using transformer_visit_expr_output_stable. }
  revert s'.
  induction s as [ts v n|t op v|v|t b o IHb IHo|t b o IHb IHo|n ps b IHb|]
    using stmt_nested_ind;
    intros s'; cbn [transformer_visit_stmt];
    repeat match goal with
    | |- (?m ≫= _) = Ok _ → _ => destruct m eqn:?; simpl; [|done]
    end;
    intros [= <-]; cbn [stmt_exprs]; rewrite ?stable_app; repeat split;
    eauto using mapM_result_output_stable, transformer_visit_expr_output_stable.
  intros b Hb. by apply elem_of_nil in Hb.
Qed.

(** If the results of the engine are stable in the sense above, a tree
    that [optimize_tree] has produced is returned unchanged by a second
    run.  Whether SymPy is such an engine is not a matter of this code. *)
Lemma optimize_tree_twice (tree tree' : module_) :
  optimize_tree expand_polynomials tree = Ok tree' →
  optimize_tree expand_polynomials tree' = Ok tree'.
Proof.
  unfold optimize_tree.
  destruct (mapM_result _ (mod_body tree)) as [body'|] eqn:Hbody; [|done].
  intros [= <-]. cbn [mod_body].
  rewrite (mapM_result_stable expand_polynomials _ stmt_exprs); [done| |].
  - apply Forall_forall. auto using transformer_visit_stmt_stable.
  - eapply mapM_result_output_stable; [|exact Hbody].
    apply Forall_forall. eauto using transformer_visit_stmt_output_stable.
Qed.

End SecondRun.

(** ** The calculus transform *)

Lemma calc_visit_expr_id (e : expr) : calc_visit_expr e = e.
Proof.
  assert (Hmap : ∀ es, Forall (λ e, calc_visit_expr e = e) es →
    map calc_visit_expr es = es).
  { induction 1 as [|x es Hx _ IH]; simpl; congruence. }
  induction e as
    [id|c|l op r IHl IHr|op e IHe|op vs IHvs|l ops cs IHl IHcs|f args IHf IHargs
    |v a IHv|v sl IHv IHsl|es IHes|es IHes] using expr_nested_ind;
    cbn [calc_visit_expr]; rewrite ?Hmap by done; congruence.
Qed.

Section CalcProperties.

Variable diff_vars : gset string.
Variable int_vars : gset string.
Variable diff_lines : gset Z.

Lemma visit_Assign_forget (targets : list expr) (value : expr) (lineno : Z) (s' : stmt) :
  visit_Assign diff_vars int_vars diff_lines targets value lineno = Ok s' →
  forget_assigned s' = forget_assigned (Assign targets value lineno).
Proof.
  unfold visit_Assign. destruct targets as [|target rest]; [done|].
  cbn [head or_raise mbind result_bind].
  destruct target; try by intros [= <-].
  match goal with |- context [if ?b then _ else Ok value] => destruct b end;
    match goal with |- context [if ?b then _ else _] => destruct b end;
    repeat match goal with
    | |- (?m ≫= _) = Ok _ → _ => destruct m; simpl; [|done]
    end; by intros [= <-].
Qed.

Lemma calc_visit_stmt_forget (s s' : stmt) :
  calc_visit_stmt diff_vars int_vars diff_lines s = Ok s' →
  forget_assigned s' = forget_assigned s.
Proof.
  assert (Hmap : ∀ ss ss',
    Forall (λ s, ∀ s', calc_visit_stmt diff_vars int_vars diff_lines s = Ok s' →
                       forget_assigned s' = forget_assigned s) ss →
    mapM_result (calc_visit_stmt diff_vars int_vars diff_lines) ss = Ok ss' →
    map forget_assigned ss' = map forget_assigned ss).
  { intros ss ss' IH H%mapM_result_Ok_inv. revert IH.
    induction H as [|a b ss ss' Hab _ IH']; intros IH; [done|].
    apply Forall_cons in IH as [Ha Hss]. simpl. f_equal; auto. }
  revert s'.
  induction s as [ts v n|t op v|v|t b o IHb IHo|t b o IHb IHo|n ps b IHb|]
    using stmt_nested_ind; intros s'; cbn [calc_visit_stmt];
    rewrite ?calc_visit_expr_id;
    try (by intros [= <-]); try apply visit_Assign_forget.
  - destruct (mapM_result _ b) as [b'|] eqn:Hb; [|done].
    destruct (mapM_result _ o) as [o'|] eqn:Ho; [|done].
    intros [= <-]. cbn [forget_assigned]. by rewrite (Hmap b b'), (Hmap o o').
  - destruct (mapM_result _ b) as [b'|] eqn:Hb; [|done].
    destruct (mapM_result _ o) as [o'|] eqn:Ho; [|done].
    intros [= <-]. cbn [forget_assigned]. by rewrite (Hmap b b'), (Hmap o o').
  - destruct (mapM_result _ b) as [b'|] eqn:Hb; [|done].
    intros [= <-]. cbn [forget_assigned]. by rewrite (Hmap b b').
Qed.

(** C5, as the code has it.  The transform rewrites nothing but the
    value of assignment statements whose first target is a plain name,
    wherever the statement stands: the tree it returns differs from the
    tree it was given in such values at most.  In particular an
    assignment whose first target is not a plain name (a tuple, an
    attribute, a subscript) comes back as it was. *)
Theorem calc_visit_frame (tree tree' : module_) :
  calc_visit diff_vars int_vars diff_lines tree = Ok tree' →
  map forget_assigned (mod_body tree') = map forget_assigned (mod_body tree)
  ∧ ∀ target rest value lineno,
      (∀ id, target ≠ Name id) →
      calc_visit_stmt diff_vars int_vars diff_lines (Assign (target :: rest) value lineno)
      = Ok (Assign (target :: rest) value lineno).
Proof.
  intros H. split.
  - unfold calc_visit in H.
    destruct (mapM_result _ (mod_body tree)) as [body'|] eqn:Hbody; [|done].
    injection H as <-. apply mapM_result_Ok_inv in Hbody. simpl.
    induction Hbody as [|a b ss ss' Hab _ IH]; [done|].
    simpl. f_equal; [|done]. by apply calc_visit_stmt_forget.
  - intros target rest value lineno Hne. cbn [calc_visit_stmt].
    unfold visit_Assign. simpl. destruct target; try done.
    by destruct (Hne id).
Qed.



End CalcProperties.

(** * Further properties *)

(** ** The pieces of a line specification *)

Lemma parse_line_part_union (lines : gset Z) (part : string) :
  parse_line_part lines part = (lines ∪.) <$> parse_line_part ∅ part.
Proof.
  unfold parse_line_part. destruct (decide _); simpl.
  - by rewrite (right_id_L ∅ (∪)).
  - destruct (split_once _ _) as [[a b]|].
    + destruct (int a) as [a'|]; [|done]. destruct (int b) as [b'|]; [|done].
      simpl. by rewrite (left_id_L ∅ (∪)).
    + destruct (int _) as [n'|]; [|done]. simpl. by rewrite (left_id_L ∅ (∪)).
Qed.

Lemma parse_line_part_raise (lines : gset Z) (part : string) (e : exn) :
  parse_line_part lines part = Raise e →
  e = ValueError ∧ parse_line_part ∅ part = Raise ValueError.
Proof.
  rewrite (parse_line_part_union lines).
  unfold parse_line_part, int. destruct (decide _); [done|].
  destruct (split_once _ _) as [[a b]|];
    repeat match goal with
    | |- context [or_raise ValueError ?o] => destruct o; simpl
    end; by intros [= <-].
Qed.

Lemma foldM_parse_line_part_raise (parts : list string) (lines : gset Z) (e : exn) :
  foldM_result parse_line_part parts lines = Raise e ↔
  e = ValueError ∧ Exists (λ p, parse_line_part ∅ p = Raise ValueError) parts.
Proof.
  revert lines. induction parts as [|p parts IH]; intros lines; simpl.
  - split; [done|]. intros [_ H]. by apply Exists_nil in H.
  - rewrite Exists_cons.
    destruct (parse_line_part lines p) as [lines'|e'] eqn:Hp.
    + rewrite IH. rewrite (parse_line_part_union lines) in Hp.
      destruct (parse_line_part ∅ p); [|done].
      split; intros [He H]; (split; [done|]); [by right|].
      by destruct H.
    + apply parse_line_part_raise in Hp as [-> Hp].
      split; [intros [= <-]; split; [done|by left]|by intros [-> _]].
Qed.

(** ** What the optimizer keeps *)

Lemma mapM_result_length {A B} (f : A → result B) (l : list A) (k : list B) :
  mapM_result f l = Ok k → length k = length l.
Proof. intros H%mapM_result_Ok_inv. symmetry. by eapply Forall2_length. Qed.

Lemma map_blank_length (es es' : list expr) :
  length es' = length es → map (λ _, blank) es' = map (λ _, blank) es.
Proof.
  revert es'. induction es as [|e es IH]; intros [|e' es']; simpl; try done.
  intros [= H]. by rewrite (IH es').
Qed.

Lemma mapM_result_skeleton (f : stmt → result stmt) (ss ss' : list stmt) :
  Forall (λ s, ∀ s', f s = Ok s' → skeleton s' = skeleton s) ss →
  mapM_result f ss = Ok ss' →
  map skeleton ss' = map skeleton ss.
Proof.
  intros IH H%mapM_result_Ok_inv. revert IH.
  induction H as [|a b ss ss' Hab _ IH']; intros IH; [done|].
  apply Forall_cons in IH as [Ha Hss]. simpl. f_equal; auto.
Qed.

Lemma transformer_visit_stmt_skeleton (expand_polynomials : bool) (s s' : stmt) :
  transformer_visit_stmt expand_polynomials s = Ok s' →
  skeleton s' = skeleton s.
Proof.
  revert s'.
  induction s as [ts v n|t op v|v|t b o IHb IHo|t b o IHb IHo|n ps b IHb|]
    using stmt_nested_ind;
    intros s'; cbn [transformer_visit_stmt];
    repeat match goal with
    | |- (?m ≫= _) = Ok _ → _ => destruct m eqn:?; simpl; [|done]
    end;
    intros [= <-]; cbn [skeleton]; try done;
    repeat match goal with
    | H : mapM_result (transformer_visit_stmt _) ?l = Ok _, IH : Forall _ ?l |- _ =>
        apply (mapM_result_skeleton _ _ _ IH) in H; rewrite H; clear IH
    end; try done.
  f_equal. by eapply map_blank_length, mapM_result_length.
Qed.

(** X6.  The optimizer rewrites expressions only: a run that returns gives
    back the same statements in the same order, each of its kind, with
    as many targets, on the same line and with the same nested
    statements; none is added, dropped or moved. *)
Theorem optimize_tree_skeleton (expand_polynomials : bool) (tree tree' : module_) :
  optimize_tree expand_polynomials tree = Ok tree' →
  map skeleton (mod_body tree') = map skeleton (mod_body tree).
Proof.
  unfold optimize_tree.
  destruct (mapM_result _ (mod_body tree)) as [body'|] eqn:Hbody; [|done].
  intros [= <-]. cbn [mod_body].
  eapply mapM_result_skeleton; [|exact Hbody].
  apply Forall_forall. intros s _ s'. apply transformer_visit_stmt_skeleton.
Qed.

(** ** What the optimizer raises *)

Lemma parse_value_raise (text : string) (x : exn) :
  parse_value text = Raise x →
  x = SyntaxError ∨ x = IndexError ∨ x = AttributeError.
Proof.
  unfold parse_value. destruct (ast_parse text) as [[body]|]; simpl;
    [|intros [= <-]; auto].
  destruct body as [|first rest]; simpl; [intros [= <-]; auto|].
  destruct first; simpl; intros [= <-]; auto.
Qed.

Lemma optimize_tree_binop_free (expand_polynomials : bool) (tree : module_) :
  binops tree = [] → optimize_tree expand_polynomials tree = Ok tree.
Proof.
  unfold binops, module_exprs, optimize_tree. destruct tree as [body]. simpl.
  intros Hnil. rewrite (mapM_result_no_binop _ stmt_exprs); [done| |done].
  apply Forall_forall. intros s _. apply transformer_visit_stmt_no_binop.
Qed.


(** ** Trees the engine leaves alone *)

(** X8.  A tree in which [optimize_node] returns every binary operation as it
    is comes back unchanged, whatever else it holds. *)
Theorem optimize_tree_stable (expand_polynomials : bool) (tree : module_) :
  stable expand_polynomials (module_exprs tree) →
  optimize_tree expand_polynomials tree = Ok tree.
Proof.
  unfold optimize_tree, module_exprs. destruct tree as [body]. simpl.
  intros Hst. rewrite (mapM_result_stable expand_polynomials _ stmt_exprs); [done| |done].
  apply Forall_forall. auto using transformer_visit_stmt_stable.
Qed.


(** ** The calculus pass on what is not selected *)

Section CalcFurther.

Variable diff_vars : gset string.
Variable int_vars : gset string.
Variable diff_lines : gset Z.

Lemma visit_Assign_unselected (targets : list expr) (value : expr) (lineno : Z) :
  unselected diff_vars int_vars diff_lines (targets, lineno) →
  visit_Assign diff_vars int_vars diff_lines targets value lineno
  = Ok (Assign targets value lineno).
Proof.
  unfold unselected, visit_Assign. cbn [fst snd].
  destruct targets as [|target rest]; [done|]. cbn [head or_raise mbind result_bind].
  destruct target; try done.
  intros [[Hd Hi]|[Hne Hn]].
  - by rewrite (bool_decide_eq_false_2 _ Hd), (bool_decide_eq_false_2 _ Hi).
  - rewrite (bool_decide_eq_false_2 (diff_lines = ∅)) by done.
    rewrite (bool_decide_eq_false_2 (lineno ∈ diff_lines)) by done.
    by rewrite !andb_false_r.
Qed.

Lemma calc_visit_stmt_unselected (s : stmt) :
  Forall (unselected diff_vars int_vars diff_lines) (assigns s) →
  calc_visit_stmt diff_vars int_vars diff_lines s = Ok s.
Proof.
  assert (Hmap : ∀ ss,
    Forall (λ s, Forall (unselected diff_vars int_vars diff_lines) (assigns s) →
                 calc_visit_stmt diff_vars int_vars diff_lines s = Ok s) ss →
    Forall (unselected diff_vars int_vars diff_lines) (flat_map assigns ss) →
    mapM_result (calc_visit_stmt diff_vars int_vars diff_lines) ss = Ok ss).
  { intros ss IH H. apply mapM_result_id. revert H.
    induction IH as [|x l Hx _ IHl]; simpl; intros H; [constructor|].
    apply Forall_app in H as [H1 H2]. constructor; auto. }
  induction s as [ts v n|t op v|v|t b o IHb IHo|t b o IHb IHo|n ps b IHb|]
    using stmt_nested_ind;
    cbn [assigns calc_visit_stmt]; rewrite ?calc_visit_expr_id; intros H; try done.
  - apply Forall_cons in H as [H _]. by apply visit_Assign_unselected.
  - apply Forall_app in H as [Hb Ho]. by rewrite (Hmap b), (Hmap o).
  - apply Forall_app in H as [Hb Ho]. by rewrite (Hmap b), (Hmap o).
  - by rewrite (Hmap b).
Qed.

Lemma calc_visit_id_unselected (tree : module_) :
  Forall (unselected diff_vars int_vars diff_lines)
    (flat_map assigns (mod_body tree)) →
  calc_visit diff_vars int_vars diff_lines tree = Ok tree.
Proof.
  intros H. unfold calc_visit. destruct tree as [body]. simpl in *.
  rewrite mapM_result_id; [done|].
  induction body as [|s body IH]; simpl in *; [constructor|].
  apply Forall_app in H as [Hs Hbody].
  constructor; [by apply calc_visit_stmt_unselected|auto].
Qed.

(** X10.  The calculus pass returns the tree as it is, and raises nothing,
    when each assignment in it, at any depth, either has a first target
    that is not a name, or a name selected for neither rewrite, or
    stands on a line the filter rules out. *)
Theorem calc_visit_unselected (tree : module_) :
  Forall (unselected diff_vars int_vars diff_lines)
    (flat_map assigns (mod_body tree)) →
  calc_visit diff_vars int_vars diff_lines tree = Ok tree.
Proof. apply calc_visit_id_unselected. Qed.

End CalcFurther.

(** ** What [process_file] leaves behind *)

Section ProcessFileFurther.

Variable diff_vars : gset string.
Variable int_vars : gset string.
Variable diff_lines : gset Z.
Variable unified_diff : string → string → string → string.

Lemma process_file_world (path : string) (expand_polynomials inplace show_diff : bool)
    (w : world) :
  let res := process_file diff_vars int_vars diff_lines unified_diff
               path expand_polynomials inplace show_diff w in
  (∀ e, fst res = Raise e → snd res = w)
  ∧ (∀ p, p ≠ path → files (snd res) !! p = files w !! p)
  ∧ (inplace = false → files (snd res) = files w)
  ∧ (∃ out, console (snd res) = console w ++ out ∧ (length out ≤ 1)%nat).
Proof.
  cbv zeta. unfold process_file.
  destruct (_ ≫= _) as [[full_src optimized]|e]; cbn [fst snd].
  - destruct inplace; [|destruct show_diff]; cbn [fst snd files console].
    + split_and!; [done| |done|].
      * intros p Hp. by rewrite lookup_insert_ne.
      * eexists [_]. split; [done|simpl; lia].
    + split_and!; [done..|]. eexists [_]. split; [done|simpl; lia].
    + split_and!; [done..|]. eexists [_]. split; [done|simpl; lia].
  - split_and!; try done. exists []. rewrite app_nil_r. split; [done|simpl; lia].
Qed.



End ProcessFileFurther.

(** X13.  A line filter is of no effect without a selected name: with both
    sets of names empty, [process_file] does the same with any filter
    as with none, on a file whose assignments all have a target. *)
Theorem process_file_filter_alone (diff_lines : gset Z)
    (unified_diff : string → string → string → string)
    (path : string) (expand_polynomials inplace show_diff : bool) (w : world)
    (src : string) (tree : module_) :
  files w !! path = Some src →
  ast_parse src = Some tree →
  Forall (λ a, fst a ≠ []) (flat_map assigns (mod_body tree)) →
  process_file ∅ ∅ diff_lines unified_diff path expand_polynomials inplace show_diff w
  = process_file ∅ ∅ ∅ unified_diff path expand_polynomials inplace show_diff w.
Proof.
  intros Hfile Hparse Hwf.
  assert (source_tree ∅ ∅ diff_lines path w = source_tree ∅ ∅ ∅ path w) as Hsrc.
  { unfold source_tree. rewrite Hfile. cbn [or_raise mbind result_bind].
    rewrite Hparse. cbn [or_raise mbind result_bind].
    rewrite !(bool_decide_eq_false_2 (∅ ≠ ∅)) by (intros H; by apply H).
    destruct (bool_decide (diff_lines ≠ ∅)); cbn [orb]; [|done].
    rewrite calc_visit_id_unselected; [done|].
    eapply Forall_impl; [exact Hwf|].
    intros [ts n]. unfold unselected. cbn [fst snd].
    destruct ts as [|[] ?]; try done. intros _. left. set_solver. }
  unfold process_file. by rewrite Hsrc.
Qed.

(** ** A run over several files *)

Section MainFurther.

Variable unified_diff : string → string → string → string.
Variable target_paths : string → bool → world → list string.

Lemma process_files_app (diff_vars int_vars : gset string) (diff_lines : gset Z)
    (expand_polynomials inplace show_diff : bool) (ps1 ps2 : list string) (w : world) :
  process_files unified_diff diff_vars int_vars diff_lines
    expand_polynomials inplace show_diff (ps1 ++ ps2) w
  = match process_files unified_diff diff_vars int_vars diff_lines
            expand_polynomials inplace show_diff ps1 w with
    | (Ok _, w') =>
        process_files unified_diff diff_vars int_vars diff_lines
          expand_polynomials inplace show_diff ps2 w'
    | (Raise e, w') => (Raise e, w')
    end.
Proof.
  revert w. induction ps1 as [|p ps1 IH]; intros w; simpl; [done|].
  destruct (process_file _ _ _ _ _ _ _ _ _) as [[[]|e] w']; [apply IH|done].
Qed.

Lemma process_files_world (diff_vars int_vars : gset string) (diff_lines : gset Z)
    (expand_polynomials inplace show_diff : bool) (paths : list string) (w : world) :
  let res := process_files unified_diff diff_vars int_vars diff_lines
               expand_polynomials inplace show_diff paths w in
  (∀ p, p ∉ paths → files (snd res) !! p = files w !! p)
  ∧ (inplace = false → files (snd res) = files w)
  ∧ (∃ out, console (snd res) = console w ++ out
            ∧ (length out ≤ length paths)%nat).
Proof.
  cbv zeta. revert w. induction paths as [|path paths IH]; intros w; simpl.
  - split_and!; try done. exists []. rewrite app_nil_r. split; [done|simpl; lia].
  - destruct (process_file_world diff_vars int_vars diff_lines unified_diff
                path expand_polynomials inplace show_diff w)
      as (Hraise & Hother & Hplain & out & Hout & Hlen).
    destruct (process_file _ _ _ _ _ _ _ _ _) as [[[]|e] w'] eqn:Hfile;
      cbn [fst snd] in *.
    + destruct (IH w') as (IHother & IHplain & out' & Hout' & Hlen').
      split_and!.
      * intros p [Hp Hps]%not_elem_of_cons. by rewrite IHother, Hother.
      * intros Hin. by rewrite IHplain, Hplain.
      * exists (out ++ out'). rewrite Hout', Hout, length_app, app_assoc.
        split; [done|lia].
    + split_and!.
      * intros p [Hp Hps]%not_elem_of_cons. by apply Hother.
      * done.
      * exists out. split; [done|lia].
Qed.

(** X14.  A malformed line specification ends the run before any file is
    looked at: [main] raises the [ValueError] of [parse_line_set] and
    the files and the console are as they were. *)
Theorem main_line_spec_error (target : string) (expand_flag : bool)
    (differentiate integrate : list string) (diff_lines : string)
    (inplace recursive diff : bool) (w : world) :
  Exists (λ part, parse_line_part ∅ part = Raise ValueError) (split "," diff_lines) →
  main unified_diff target_paths target expand_flag differentiate integrate
    diff_lines inplace recursive diff w
  = (Raise ValueError, w).
Proof.
  intros Hbad.
  assert (parse_line_set diff_lines = Raise ValueError) as He.
  { by apply foldM_parse_line_part_raise. }
  unfold main. destruct (decide _) as [->|_]; [done|]. by rewrite He.
Qed.



End MainFurther.

End Program.

(** ** Line specifications *)

Lemma is_digit_cases (c : ascii) :
  is_digit c = true →
  c ∈ ["0"; "1"; "2"; "3"; "4"; "5"; "6"; "7"; "8"; "9"]%char.
Proof.
  destruct c as [[] [] [] [] [] [] [] []]; vm_compute; intros H;
    try discriminate H; set_solver.
Qed.

Lemma is_digit_plain (c : ascii) :
  is_digit c = true →
  is_space c = false ∧ Ascii.eqb c "," = false ∧ Ascii.eqb c "-" = false
  ∧ Ascii.eqb c "+" = false.
Proof.
  intros H%is_digit_cases.
  repeat (apply elem_of_cons in H as [->|H]; [by vm_compute|]).
  by apply elem_of_nil in H.
Qed.

Lemma string_forall_impl (p q : ascii → bool) (s : string) :
  (∀ c, p c = true → q c = true) →
  string_forall p s = true → string_forall q s = true.
Proof.
  intros Hpq. induction s as [|c s IH]; simpl; [done|].
  intros [Hc Hs]%andb_true_iff. rewrite (Hpq c Hc). auto.
Qed.

Lemma string_forall_app (p : ascii → bool) (s t : string) :
  string_forall p (String.append s t) = string_forall p s && string_forall p t.
Proof. induction s as [|c s IH]; simpl; [done|]. by rewrite IH, andb_assoc. Qed.

Lemma strip_plain (s : string) :
  string_forall (λ c, negb (is_space c)) s = true → strip s = s.
Proof.
  intros Hs. unfold strip.
  assert (lstrip s = s) as ->.
  { destruct s as [|c s]; simpl in *; [done|].
    apply andb_true_iff in Hs as [Hc%negb_true_iff _]. by rewrite Hc. }
  induction s as [|c s IH]; simpl in *; [done|].
  apply andb_true_iff in Hs as [Hc%negb_true_iff Hs].
  rewrite (IH Hs), Hc. by destruct s.
Qed.

Lemma split_plain (sep : ascii) (s : string) :
  string_forall (λ c, negb (Ascii.eqb c sep)) s = true → split sep s = [s].
Proof.
  induction s as [|c s IH]; simpl; [done|].
  intros [Hc%negb_true_iff Hs]%andb_true_iff. by rewrite Hc, (IH Hs).
Qed.

Lemma split_app (sep : ascii) (s t : string) :
  string_forall (λ c, negb (Ascii.eqb c sep)) s = true →
  split sep (String.append s (String sep t)) = s :: split sep t.
Proof.
  induction s as [|c s IH]; simpl.
  - by rewrite Ascii.eqb_refl.
  - intros [Hc%negb_true_iff Hs]%andb_true_iff. by rewrite Hc, (IH Hs).
Qed.

Lemma split_once_plain (sep : ascii) (s : string) :
  string_forall (λ c, negb (Ascii.eqb c sep)) s = true → split_once sep s = None.
Proof.
  induction s as [|c s IH]; simpl; [done|].
  intros [Hc%negb_true_iff Hs]%andb_true_iff. by rewrite Hc, (IH Hs).
Qed.

Lemma split_once_app (sep : ascii) (s t : string) :
  string_forall (λ c, negb (Ascii.eqb c sep)) s = true →
  split_once sep (String.append s (String sep t)) = Some (s, t).
Proof.
  induction s as [|c s IH]; simpl.
  - by rewrite Ascii.eqb_refl.
  - intros [Hc%negb_true_iff Hs]%andb_true_iff. by rewrite Hc, (IH Hs).
Qed.

(** *** Decimal numerals *)

Lemma string_of_uint_digits (d : Decimal.uint) :
  string_forall is_digit (NilEmpty.string_of_uint d) = true.
Proof. induction d; simpl; done. Qed.

Lemma int_digits_string_of_uint (d acc : Decimal.uint) (after_digit : bool) :
  d ≠ Decimal.Nil ∨ after_digit = true →
  int_digits (Z.of_N (Unsigned.of_lu acc)) after_digit (NilEmpty.string_of_uint d)
  = Some (Z.of_N (Unsigned.of_lu (Decimal.revapp d acc))).
Proof.
  revert acc after_digit.
  induction d as [|d IH|d IH|d IH|d IH|d IH|d IH|d IH|d IH|d IH|d IH];
    intros acc after_digit Hd;
    [destruct Hd as [?| ->]; done|..];
    cbn [NilEmpty.string_of_uint int_digits Decimal.revapp];
    match goal with
    | |- context [digit_of_ascii ?c] =>
        change (digit_of_ascii c) with (Some (Z.of_N (N_of_ascii c) - 48))
    end; cbn [N_of_ascii N_of_digits];
    rewrite <- (IH _ true) by auto; f_equal; cbn [Unsigned.of_lu]; lia.
Qed.

Lemma decimal_digits (n : N) :
  string_forall is_digit (decimal n) = true ∧ decimal n ≠ EmptyString.
Proof.
  unfold decimal, NilZero.string_of_uint.
  destruct (N.to_uint n) eqn:Hn; try done; split; try done;
    apply (string_of_uint_digits (_ _)).
Qed.

Lemma int_decimal (n : N) : int (decimal n) = Ok (Z.of_N n).
Proof.
  destruct (decimal_digits n) as [Hdig Hne]. unfold int.
  rewrite strip_plain
    by (eapply string_forall_impl; [|exact Hdig];
        intros c Hc; by destruct (is_digit_plain c Hc) as [-> _]).
  assert (int_digits 0 false (decimal n) = Some (Z.of_N n)) as Hval.
  { clear Hdig Hne. unfold decimal, NilZero.string_of_uint.
    pose proof (DecimalN.Unsigned.of_to n) as Hn.
    unfold N.of_uint in Hn. rewrite DecimalPos.Unsigned.of_uint_alt in Hn.
    rewrite <- Hn at 2. unfold Decimal.rev.
    destruct (N.to_uint n) eqn:Hd; try done;
      apply (int_digits_string_of_uint (_ _) Decimal.Nil false); by left. }
  destruct (decimal n) as [|c s]; [done|]. simpl in Hdig.
  apply andb_true_iff in Hdig as [Hc _].
  apply is_digit_cases in Hc.
  repeat (apply elem_of_cons in Hc as [->|Hc]; [by rewrite Hval|]).
  by apply elem_of_nil in Hc.
Qed.

(** *** Well-written specifications *)

Lemma decimal_plain (n : N) (q : ascii → bool) :
  (∀ c, is_digit c = true → q c = true) →
  string_forall q (decimal n) = true.
Proof.
  intros Hq. eapply string_forall_impl; [exact Hq|]. apply decimal_digits.
Qed.

Lemma parse_line_part_token (lines : gset Z) (t : line_token) :
  parse_line_part lines (render_token t) = Ok (lines ∪ token_lines t).
Proof.
  assert (Hspace : ∀ c, is_digit c = true → negb (is_space c) = true).
  { intros c Hc. by destruct (is_digit_plain c Hc) as [-> _]. }
  assert (Hdash : ∀ c, is_digit c = true → negb (Ascii.eqb c "-") = true).
  { intros c Hc. by destruct (is_digit_plain c Hc) as (_ & _ & -> & _). }
  unfold parse_line_part. destruct t as [n|a b]; cbn [render_token token_lines].
  - rewrite strip_plain by by apply decimal_plain.
    destruct (decide _) as [Hnil|_]; [by destruct (decimal_digits n)|].
    rewrite split_once_plain by by apply decimal_plain.
    by rewrite int_decimal.
  - rewrite strip_plain
      by (rewrite string_forall_app; cbn [string_forall];
          by rewrite !decimal_plain).
    destruct (decide _) as [Hnil|_].
    { destruct (decimal_digits a) as [_ Ha]. by destruct (decimal a). }
    rewrite split_once_app by by apply decimal_plain.
    by rewrite !int_decimal.
Qed.

Lemma render_token_no_comma (t : line_token) :
  string_forall (λ c, negb (Ascii.eqb c ",")) (render_token t) = true.
Proof.
  assert (Hcomma : ∀ c, is_digit c = true → negb (Ascii.eqb c ",") = true).
  { intros c Hc. by destruct (is_digit_plain c Hc) as (_ & -> & _). }
  destruct t as [n|a b]; cbn [render_token].
  - by apply decimal_plain.
  - rewrite string_forall_app. cbn [string_forall]. by rewrite !decimal_plain.
Qed.

Lemma split_render_spec (t : line_token) (ts : list line_token) :
  split "," (render_spec (t :: ts)) = map render_token (t :: ts).
Proof.
  unfold render_spec. revert t. induction ts as [|t' ts IH]; intros t.
  - apply split_plain, render_token_no_comma.
  - change (String.concat "," (map render_token (t :: t' :: ts)))
      with (String.append (render_token t)
              (String "," (String.concat "," (map render_token (t' :: ts))))).
    by rewrite split_app, IH by apply render_token_no_comma.
Qed.

Lemma foldM_parse_line_part (ts : list line_token) (lines : gset Z) :
  foldM_result parse_line_part (map render_token ts) lines
  = Ok (lines ∪ ⋃ (token_lines <$> ts)).
Proof.
  revert lines. induction ts as [|t ts IH]; intros lines; simpl.
  - by rewrite (right_id_L ∅ (∪)).
  - by rewrite parse_line_part_token, IH, (assoc_L (∪)).
Qed.

Lemma elem_of_range (a b n : Z) : n ∈ range a b ↔ (a ≤ n < b)%Z.
Proof. unfold range. rewrite elem_of_list_to_set, elem_of_seqZ. lia. Qed.

(** C9.  A specification written as numerals and ranges [a-b] joined by
    commas is read as the set of the lines its pieces stand for, a range
    standing for every integer from [a] to [b] inclusive; in particular
    ["2,5-7"] is read as {2, 5, 6, 7}, and the empty text as the empty
    set. *)
Theorem parse_line_set_spec (ts : list line_token) :
  parse_line_set (render_spec ts) = Ok (⋃ (token_lines <$> ts))
  ∧ (∀ a b n, n ∈ token_lines (Span a b) ↔ (Z.of_N a ≤ n ≤ Z.of_N b)%Z)
  ∧ (∀ m n, n ∈ token_lines (Single m) ↔ n = Z.of_N m)
  ∧ parse_line_set "2,5-7" = Ok {[ 2; 5; 6; 7 ]}
  ∧ parse_line_set "" = Ok ∅.
Proof.
  assert (Hgen : ∀ ts, parse_line_set (render_spec ts) = Ok (⋃ (token_lines <$> ts))).
  { intros [|t ts']; [done|]. unfold parse_line_set.
    by rewrite split_render_spec, foldM_parse_line_part, (left_id_L ∅ (∪)). }
  split_and!; [done| | | |done].
  - intros a b n. cbn [token_lines]. rewrite elem_of_range. lia.
  - intros m n. cbn [token_lines]. set_solver.
  - change "2,5-7" with (render_spec [Single 2; Span 5 7]). rewrite Hgen.
    reflexivity.
Qed.

(** ** Line specifications: commas, blanks and errors *)

Lemma split_nonempty (sep : ascii) (s : string) : split sep s ≠ [].
Proof.
  induction s as [|c s IH]; simpl; [done|].
  destruct (Ascii.eqb c sep); [done|]. by destruct (split sep s).
Qed.

Lemma split_append (sep : ascii) (s t : string) :
  split sep (String.append s (String sep t)) = split sep s ++ split sep t.
Proof.
  induction s as [|c s IH]; simpl.
  - by rewrite Ascii.eqb_refl.
  - rewrite IH. destruct (Ascii.eqb c sep); [done|].
    pose proof (split_nonempty sep s). by destruct (split sep s).
Qed.

Lemma foldM_result_app {A B} (f : B → A → result B) (l k : list A) (b : B) :
  foldM_result f (l ++ k) b = foldM_result f l b ≫= foldM_result f k.
Proof.
  revert b. induction l as [|x l IH]; intros b; simpl; [done|].
  destruct (f b x) as [b'|e]; [apply IH|done].
Qed.

Lemma foldM_parse_line_part_union (parts : list string) (lines : gset Z) :
  foldM_result parse_line_part parts lines
  = (lines ∪.) <$> foldM_result parse_line_part parts ∅.
Proof.
  revert lines. induction parts as [|p parts IH]; intros lines; simpl.
  - by rewrite (right_id_L ∅ (∪)).
  - rewrite (parse_line_part_union lines).
    destruct (parse_line_part ∅ p) as [l1|]; [|done]. simpl.
    rewrite (IH (lines ∪ l1)), (IH l1).
    destruct (foldM_result _ parts ∅) as [l2|]; [|done]. simpl.
    by rewrite (assoc_L (∪)).
Qed.

Lemma parse_line_set_append (s t : string) :
  parse_line_set (String.append s (String "," t))
  = (l1 ← parse_line_set s; l2 ← parse_line_set t; Ok (l1 ∪ l2)).
Proof.
  unfold parse_line_set. rewrite split_append, foldM_result_app.
  destruct (foldM_result _ (split "," s) ∅) as [l1|]; [|done]. simpl.
  rewrite foldM_parse_line_part_union. by destruct (foldM_result _ _ ∅).
Qed.

(** X1.  Joining two specifications with a comma gives the union of what
    they stand for, the first exception winning; so the order of the
    pieces and their repetition do not matter to the result. *)
Theorem parse_line_set_comma (spec1 spec2 : string) :
  parse_line_set (String.append spec1 (String "," spec2))
  = (lines1 ← parse_line_set spec1;
     lines2 ← parse_line_set spec2;
     Ok (lines1 ∪ lines2))
  ∧ (∀ lines1 lines2,
       parse_line_set spec1 = Ok lines1 →
       parse_line_set spec2 = Ok lines2 →
       parse_line_set (String.append spec2 (String "," spec1))
       = parse_line_set (String.append spec1 (String "," spec2)))
  ∧ (∀ lines1,
       parse_line_set spec1 = Ok lines1 →
       parse_line_set (String.append spec1 (String "," spec1)) = Ok lines1).
Proof.
  split_and!; [apply parse_line_set_append|..].
  - intros l1 l2 H1 H2. rewrite !parse_line_set_append, H1, H2. simpl.
    by rewrite (comm_L (∪)).
  - intros l1 H1. rewrite parse_line_set_append, H1. simpl.
    by rewrite (idemp_L (∪)).
Qed.

(** *** Blanks *)

Lemma lstrip_spaces (ws s : string) :
  string_forall is_space ws = true →
  lstrip (String.append ws s) = lstrip s.
Proof.
  induction ws as [|c ws IH]; simpl; [done|].
  intros [Hc Hws]%andb_true_iff. rewrite Hc. auto.
Qed.

Lemma rstrip_blank (ws : string) :
  string_forall is_space ws = true → rstrip ws = EmptyString.
Proof.
  induction ws as [|c ws IH]; simpl; [done|].
  intros [Hc Hws]%andb_true_iff. by rewrite (IH Hws), Hc.
Qed.

Lemma rstrip_spaces (s ws : string) :
  string_forall is_space ws = true →
  rstrip (String.append s ws) = rstrip s.
Proof.
  intros Hws. induction s as [|c s IH].
  - by rewrite rstrip_blank.
  - simpl. by rewrite IH.
Qed.

Lemma lstrip_blank (ws : string) :
  string_forall is_space ws = true → lstrip ws = EmptyString.
Proof.
  induction ws as [|c ws IH]; simpl; [done|].
  intros [Hc Hws]%andb_true_iff. rewrite Hc. auto.
Qed.

Lemma lstrip_append (s ws : string) :
  string_forall is_space ws = true →
  rstrip (lstrip (String.append s ws)) = rstrip (lstrip s).
Proof.
  intros Hws. induction s as [|c s IH].
  - simpl. by rewrite lstrip_blank.
  - simpl. destruct (is_space c); [exact IH|].
    exact (rstrip_spaces (String c s) ws Hws).
Qed.

Lemma strip_padding (ws1 ws2 part : string) :
  string_forall is_space ws1 = true →
  string_forall is_space ws2 = true →
  strip (String.append ws1 (String.append part ws2)) = strip part.
Proof.
  intros H1 H2. unfold strip. by rewrite lstrip_spaces, lstrip_append.
Qed.

Lemma is_space_no_comma (ws : string) :
  string_forall is_space ws = true →
  string_forall (λ c, negb (Ascii.eqb c ",")) ws = true.
Proof.
  apply string_forall_impl. intros c Hc.
  destruct (Ascii.eqb_spec c ",") as [->|]; [by vm_compute in Hc|done].
Qed.

(** X2.  Blanks around a piece are not read, and a piece of blanks stands
    for no line: a specification may carry stray commas and spaces. *)
Theorem parse_line_set_blanks (ws1 ws2 : string) :
  string_forall is_space ws1 = true →
  string_forall is_space ws2 = true →
  (∀ lines part,
     parse_line_part lines (String.append ws1 (String.append part ws2))
     = parse_line_part lines part)
  ∧ (∀ spec, parse_line_set (String.append spec (String "," ws1)) = parse_line_set spec)
  ∧ (∀ spec, parse_line_set (String.append ws1 (String "," spec)) = parse_line_set spec).
Proof.
  intros H1 H2.
  assert (Hblank : parse_line_set ws1 = Ok ∅).
  { unfold parse_line_set. rewrite split_plain by by apply is_space_no_comma.
    simpl. unfold parse_line_part, strip. by rewrite lstrip_blank. }
  split_and!.
  - intros lines part. unfold parse_line_part. by rewrite strip_padding.
  - intros spec. rewrite parse_line_set_append, Hblank. destruct (parse_line_set spec); simpl; [|done].
    by rewrite (right_id_L ∅ (∪)).
  - intros spec. rewrite parse_line_set_append, Hblank. simpl. destruct (parse_line_set spec); simpl; [|done].
    by rewrite (left_id_L ∅ (∪)).
Qed.

(** *** Malformed pieces *)

(** X3.  The one exception of [parse_line_set] is [ValueError], and it is
    raised exactly when one of the pieces between the commas is
    malformed on its own: no piece is excused by the others and the
    set built so far is lost. *)
Theorem parse_line_set_raise (spec : string) (e : exn) :
  parse_line_set spec = Raise e ↔
  e = ValueError
  ∧ Exists (λ part, parse_line_part ∅ part = Raise ValueError) (split "," spec).
Proof. apply foldM_parse_line_part_raise. Qed.

Lemma parse_line_part_minus (lines : gset Z) (rest : string) :
  parse_line_part lines (String "-" rest) = Raise ValueError.
Proof.
  unfold parse_line_part, strip. cbn [lstrip].
  change (is_space "-") with false. cbv iota.
  assert (∃ r, rstrip (String "-" rest) = String "-" r) as [r ->].
  { simpl. destruct (rstrip rest); eauto. }
  destruct (decide _); [done|]. simpl. done.
Qed.

(** X4.  A piece that starts with a minus sign is read as a range without a
    first bound: a negative number is not a line number, and the whole
    specification is refused. *)
Theorem parse_line_set_minus (spec rest : string) :
  String "-" rest ∈ split "," spec →
  parse_line_set spec = Raise ValueError.
Proof.
  intros Hin. apply foldM_parse_line_part_raise. split; [done|].
  apply Exists_exists. exists (String "-" rest). split; [done|].
  apply parse_line_part_minus.
Qed.

(** X5.  A range whose second bound is below its first is accepted and
    stands for no line at all. *)
Theorem parse_line_set_reversed_range (a b : N) :
  (b < a)%N →
  parse_line_set (render_token (Span a b)) = Ok ∅.
Proof.
  intros Hlt. unfold parse_line_set.
  rewrite split_plain by apply render_token_no_comma. cbn [foldM_result].
  rewrite parse_line_part_token. f_equal. cbn [token_lines].
  unfold range. rewrite seqZ_nil by lia. simpl. by rewrite (left_id_L ∅ (∪)).
Qed.


(** * The passes at work on concrete files *)

(** [print('hello')] has no binary operation and comes back as it is. *)
Lemma optimize_tree_no_binop_witness :
  binops (Module_ [Expr Toy.print_hello]) = []
  ∧ optimize_tree Toy.ast_parse Toy.unparse_expr Toy.sym Toy.sympify
      Toy.simplify Toy.factor Toy.expand Toy.sym_str true
      (Module_ [Expr Toy.print_hello])
    = Ok (Module_ [Expr Toy.print_hello]).
Proof.
  split; [reflexivity|].
  apply (optimize_tree_no_binop Toy.ast_parse Toy.ast_unparse Toy.unparse_expr
           Toy.sym Toy.sympify Toy.simplify Toy.factor Toy.expand Toy.sym_str
           true (Module_ [Expr Toy.print_hello])).
  reflexivity.
Defined.

(** [y = 4 * (2 + 3)]: the product is listed before the sum inside it. *)
Lemma extract_preorder_witness :
  fst (extract Toy.ast_parse "y = 4 * (2 + 3)" MathExtractor_init)
  = Ok (Module_ [Assign [Toy.y_] Toy.four_times_sum 1],
        [Toy.four_times_sum; BinOp (Toy.int_ 2) Add (Toy.int_ 3)]).
Proof.
  apply (extract_preorder Toy.ast_parse "y = 4 * (2 + 3)"
           (Module_ [Assign [Toy.y_] Toy.four_times_sum 1]) MathExtractor_init).
  reflexivity.
Defined.

(** Two calls on one instance: the second list starts with the first. *)
Lemma extract_accumulates_witness :
  fst (extract Toy.ast_parse "y = y ** 3"
         (snd (extract Toy.ast_parse "y = 4 * (2 + 3)" MathExtractor_init)))
  = Ok (Module_ [Assign [Toy.y_] Toy.y_cubed 1],
        [Toy.four_times_sum; BinOp (Toy.int_ 2) Add (Toy.int_ 3); Toy.y_cubed]).
Proof.
  apply (extract_accumulates Toy.ast_parse "y = 4 * (2 + 3)" "y = y ** 3"
           (Module_ [Assign [Toy.y_] Toy.four_times_sum 1])
           (Module_ [Assign [Toy.y_] Toy.y_cubed 1])); reflexivity.
Defined.



(** An assignment to a subscript and one to [y]: only the second value
    changes. *)
Lemma calc_visit_frame_witness :
  map forget_assigned
    [Assign [Subscript Toy.y_ (Toy.int_ 0)] Toy.y_cubed 1;
     Assign [Toy.y_] Toy.three_y_squared 2]
  = map forget_assigned
    [Assign [Subscript Toy.y_ (Toy.int_ 0)] Toy.y_cubed 1;
     Assign [Toy.y_] Toy.y_cubed 2].
Proof.
  apply (calc_visit_frame Toy.ast_parse Toy.unparse_expr Toy.sym Toy.sympify
           Toy.sym_diff Toy.sym_int Toy.sym_str {[ "y" ]} ∅ ∅
           (Module_ [Assign [Subscript Toy.y_ (Toy.int_ 0)] Toy.y_cubed 1;
                     Assign [Toy.y_] Toy.y_cubed 2])
           (Module_ [Assign [Subscript Toy.y_ (Toy.int_ 0)] Toy.y_cubed 1;
                     Assign [Toy.y_] Toy.three_y_squared 2])).
  reflexivity.
Defined.

(** An assignment inside the body of an [if] is rewritten all the same:
    it is not true that the statements of a module that are not
    assignments to a single name come back unchanged. *)
Lemma calc_visit_nested_counterexample :
  ¬ ∀ tree tree',
      calc_visit Toy.ast_parse Toy.unparse_expr Toy.sym Toy.sympify
        Toy.sym_diff Toy.sym_int Toy.sym_str {[ "y" ]} ∅ ∅ tree = Ok tree' →
      Forall2 (λ s s', single_name_target s = false → s' = s)
        (mod_body tree) (mod_body tree').
Proof.
  intros H.
  specialize (H (Module_ [If Toy.x_ [Assign [Toy.y_] Toy.y_cubed 2] []])
                (Module_ [If Toy.x_ [Assign [Toy.y_] Toy.three_y_squared 2] []])
                eq_refl).
  apply Forall2_cons_1 in H as [H _]. specialize (H eq_refl). discriminate H.
Qed.

(** Nor is an assignment to several targets spared when the first of
    them is a selected name. *)
Example calc_visit_two_targets :
  calc_visit Toy.ast_parse Toy.unparse_expr Toy.sym Toy.sympify
    Toy.sym_diff Toy.sym_int Toy.sym_str {[ "y" ]} ∅ ∅
    (Module_ [Assign [Toy.y_; Toy.x_] Toy.y_cubed 1])
  = Ok (Module_ [Assign [Toy.y_; Toy.x_] Toy.three_y_squared 1]).
Proof. reflexivity. Qed.

(** With a filter that does not hold line 1 the statement is left alone,
    selected or not. *)
Example line_filter_blocks :
  visit_Assign Toy.ast_parse Toy.unparse_expr Toy.sym Toy.sympify
    Toy.sym_diff Toy.sym_int Toy.sym_str {[ "y" ]} {[ "y" ]} {[ 3 ]}
    [Toy.y_] Toy.y_cubed 1
  = Ok (Assign [Toy.y_] Toy.y_cubed 1).
Proof. reflexivity. Qed.

(** The repository's first test, [y = 4 * (2 + 3)], run through
    [process_file]: the sum is folded first, then the product. *)
Example process_file_folds :
  snd (process_file Toy.ast_parse Toy.ast_unparse Toy.unparse_expr Toy.sym
         Toy.sympify Toy.simplify Toy.factor Toy.expand Toy.sym_diff Toy.sym_int
         Toy.sym_str ∅ ∅ ∅ Toy.unified_diff "a.py" false false false
         (World {[ "a.py" := "y = 4 * (2 + 3)" ]} []))
  = World {[ "a.py" := "y = 4 * (2 + 3)" ]} [CodePanel "a.py" "y = 20"].
Proof. reflexivity. Qed.

(** * The further properties at work *)

Lemma parse_line_set_blanks_witness :
  parse_line_set " 2 ,5" = parse_line_set "2,5"
  ∧ parse_line_set "2,  " = parse_line_set "2".
Proof.
  destruct (parse_line_set_blanks " " " ") as (Hpart & Htrail & _);
    [reflexivity..|].
  split.
  - unfold parse_line_set. cbn [split Ascii.eqb Bool.eqb foldM_result].
    by rewrite (Hpart ∅ "2").
  - destruct (parse_line_set_blanks "  " "") as (_ & Htrail2 & _);
      [reflexivity..|].
    exact (Htrail2 "2").
Defined.

Lemma parse_line_set_minus_witness : parse_line_set "2,-3" = Raise ValueError.
Proof.
  apply (parse_line_set_minus "2,-3" "3").
  apply list_elem_of_In. simpl. auto.
Defined.

Lemma parse_line_set_reversed_range_witness : parse_line_set "7-5" = Ok ∅.
Proof. apply (parse_line_set_reversed_range 7 5). reflexivity. Defined.

(** [y = 4 * (2 + 3)] becomes [y = 20]: still one assignment to one
    target on line 1. *)
Lemma optimize_tree_skeleton_witness :
  map skeleton [Assign [Toy.y_] (Toy.int_ 20) 1]
  = map skeleton [Assign [Toy.y_] Toy.four_times_sum 1].
Proof.
  apply (optimize_tree_skeleton Toy.ast_parse Toy.unparse_expr Toy.sym
           Toy.sympify Toy.simplify Toy.factor Toy.expand Toy.sym_str false
           (Module_ [Assign [Toy.y_] Toy.four_times_sum 1])
           (Module_ [Assign [Toy.y_] (Toy.int_ 20) 1])).
  reflexivity.
Defined.


(** [y = y ** 3]: the engine gives [y ** 3] back, so does the run. *)
Lemma optimize_tree_stable_witness :
  optimize_tree Toy.ast_parse Toy.unparse_expr Toy.sym Toy.sympify
    Toy.simplify Toy.factor Toy.expand Toy.sym_str false
    (Module_ [Assign [Toy.y_] Toy.y_cubed 1])
  = Ok (Module_ [Assign [Toy.y_] Toy.y_cubed 1]).
Proof.
  apply (optimize_tree_stable Toy.ast_parse Toy.unparse_expr Toy.sym
           Toy.sympify Toy.simplify Toy.factor Toy.expand Toy.sym_str false
           (Module_ [Assign [Toy.y_] Toy.y_cubed 1])).
  intros b Hb Hbin. apply list_elem_of_In in Hb. simpl in Hb.
  destruct Hb as [<-|[<-|[<-|[<-|[]]]]]; try discriminate Hbin. reflexivity.
Defined.


(** Only [x] is selected: the assignment to [y] is left alone. *)
Lemma calc_visit_unselected_witness :
  calc_visit Toy.ast_parse Toy.unparse_expr Toy.sym Toy.sympify
    Toy.sym_diff Toy.sym_int Toy.sym_str {[ "x" ]} ∅ ∅
    (Module_ [Assign [Toy.y_] Toy.y_cubed 1])
  = Ok (Module_ [Assign [Toy.y_] Toy.y_cubed 1]).
Proof.
  apply (calc_visit_unselected Toy.ast_parse Toy.unparse_expr Toy.sym
           Toy.sympify Toy.sym_diff Toy.sym_int Toy.sym_str {[ "x" ]} ∅ ∅
           (Module_ [Assign [Toy.y_] Toy.y_cubed 1])).
  repeat constructor.
  - by intros [=]%elem_of_singleton.
  - apply not_elem_of_empty.
Defined.


(** [y = y ** 3] with a filter on line 3 and no name selected. *)
Lemma process_file_filter_alone_witness :
  process_file Toy.ast_parse Toy.ast_unparse Toy.unparse_expr Toy.sym Toy.sympify
    Toy.simplify Toy.factor Toy.expand Toy.sym_diff Toy.sym_int Toy.sym_str
    ∅ ∅ {[ 3 ]} Toy.unified_diff "a.py" false false true
    (World {[ "a.py" := "y = y ** 3" ]} [])
  = process_file Toy.ast_parse Toy.ast_unparse Toy.unparse_expr Toy.sym Toy.sympify
      Toy.simplify Toy.factor Toy.expand Toy.sym_diff Toy.sym_int Toy.sym_str
      ∅ ∅ ∅ Toy.unified_diff "a.py" false false true
      (World {[ "a.py" := "y = y ** 3" ]} []).
Proof.
  apply (process_file_filter_alone Toy.ast_parse Toy.ast_unparse Toy.unparse_expr
           Toy.sym Toy.sympify Toy.simplify Toy.factor Toy.expand Toy.sym_diff
           Toy.sym_int Toy.sym_str {[ 3 ]} Toy.unified_diff "a.py" false false true
           (World {[ "a.py" := "y = y ** 3" ]} [])
           "y = y ** 3" (Module_ [Assign [Toy.y_] Toy.y_cubed 1]));
    [reflexivity..|].
  repeat constructor. discriminate.
Defined.


(** A line specification with a negative number: nothing is done. *)
Lemma main_line_spec_error_witness :
  main Toy.ast_parse Toy.ast_unparse Toy.unparse_expr Toy.sym Toy.sympify
    Toy.simplify Toy.factor Toy.expand Toy.sym_diff Toy.sym_int Toy.sym_str
    Toy.unified_diff (λ _ _ _, ["a.py"])
    "a.py" false ["y"] [] "2,-3" true false true
    (World {[ "a.py" := "y = y ** 3" ]} [])
  = (Raise ValueError, World {[ "a.py" := "y = y ** 3" ]} []).
Proof.
  apply (main_line_spec_error Toy.ast_parse Toy.ast_unparse Toy.unparse_expr
           Toy.sym Toy.sympify Toy.simplify Toy.factor Toy.expand Toy.sym_diff
           Toy.sym_int Toy.sym_str Toy.unified_diff (λ _ _ _, ["a.py"])).
  apply Exists_cons_tl, Exists_cons_hd. reflexivity.
Defined.
